(** * ot.ts: operational-transformation core (client, server, undo manager,
      selection) embedded in Rocq.

    The TypeScript sources are [src/lib/client.ts], [src/lib/server.ts] and the
    undo-manager / selection files.  JavaScript numbers are modelled as [Z],
    arrays as lists (index 0 first, [push] appends at the end), mutable
    objects by explicit state passing, and a thrown exception by the [Throw]
    completion, which keeps the state reached at the point of the throw. *)

From stdpp Require Import base list strings gmap sorting.
From Stdlib Require Import ZArith Lia.

Local Open Scope Z_scope.

(** ** JavaScript completions and the state-and-exception monad *)

Module JS.

(** The exception classes the sources can raise: [new Error(msg)] thrown by
    the code itself, and the two the runtime raises, [TypeError] (calling
    something that is not a function) and [ReferenceError] (reading an
    identifier that no scope binds). *)
Inductive exn : Type :=
| Error (message : string)
| TypeError (message : string)
| ReferenceError (message : string).

Inductive completion (A : Type) : Type :=
| Return (v : A)
| Throw (e : exn).
Global Arguments Return {A} v.
Global Arguments Throw {A} e.

(** A method running against a mutable object of type [S]. *)
Definition M (S A : Type) : Type := S -> S * completion A.

Definition ret {S A} (v : A) : M S A := fun s => (s, Return v).

Definition throw {S A} (e : exn) : M S A := fun s => (s, Throw e).

Definition bind {S A B} (m : M S A) (k : A -> M S B) : M S B :=
  fun s => match m s with
           | (s', Return v) => k v s'
           | (s', Throw e) => (s', Throw e)
           end.

Definition get {S} : M S S := fun s => (s, Return s).

Definition gets {S A} (f : S -> A) : M S A := fun s => (s, Return (f s)).

Definition modify {S} (f : S -> S) : M S unit := fun s => (f s, Return tt).

(** Evaluating an expression that may throw but touches no state. *)
Definition lift {S A} (c : completion A) : M S A := fun s => (s, c).

End JS.

Import JS.

Declare Scope js_scope.
Delimit Scope js_scope with js.
Notation "x <- m ;; k" := (bind m (fun x => k))
  (at level 100, m at next level, right associativity) : js_scope.
Notation "m ;;; k" := (bind m (fun _ => k))
  (at level 100, right associativity) : js_scope.
Local Open Scope js_scope.

(** ** Operation components

    The wire form of a component, which is also what [op.ops] holds at run
    time: a number or a string. *)

Inductive Op : Type :=
| OpNum (n : Z)
| OpStr (s : string).

(** Modelled from the spec: [text-operation.ts] is not among the sources; a
    positive number is a retain, a negative number a delete and a string an
    insert (spec, wire schema). *)
Definition isRetain (op : Op) : bool :=
  match op with OpNum n => 0 <? n | OpStr _ => false end.

Definition isInsert (op : Op) : bool :=
  match op with OpStr _ => true | OpNum _ => false end.

Definition isDelete (op : Op) : bool :=
  match op with OpNum n => n <? 0 | OpStr _ => false end.

(** ** The TextOperation interface

    [text-operation.ts] is imported by every source file but is not part of
    the sources, so its exports are taken as an interface: the static
    [TextOperation.transform], the methods [compose], [apply], [isNoop] and the
    field [ops].  [transform], [compose] and [apply] may throw. *)

Module TextOperation.

Class API (T : Type) : Type := {
  transform : T -> T -> completion (T * T);
  compose : T -> T -> completion T;
  apply : T -> string -> completion string;
  isNoop : T -> bool;
  ops : T -> list Op;
}.

End TextOperation.

(** ** Server ([src/lib/server.ts]) *)

Module Server.
Section Server.
Context {T : Type} `{!TextOperation.API T}.

Record t : Type := mk {
  document : string;
  operations : list T;
}.

Definition set_document (d : string) (s : t) : t :=
  mk d (operations s).

(** [this.operations.push(operation)] *)
Definition push_operation (o : T) (s : t) : t :=
  mk (document s) (operations s ++ [o]).

(** The loop of lines 27-29: [operation = transform(operation,
    concurrentOperations[i])[0]] for [i] from 0 upwards. *)
Fixpoint transformLoop (concurrentOperations : list T) (operation : T)
  : completion T :=
  match concurrentOperations with
  | [] => Return operation
  | h :: rest =>
      match TextOperation.transform operation h with
      | Return pr => transformLoop rest (fst pr)
      | Throw e => Throw e
      end
  end.

(** The specification's step 2, as a relation: [transformed_against cs op op']
    when [op'] is reached from [op] by [op := transform(op, h).0] for each
    [h] of [cs] in order. *)
Inductive transformed_against : list T -> T -> T -> Prop :=
| ta_nil (op : T) : transformed_against [] op op
| ta_cons (h : T) (rest : list T) (op op1 h1 op' : T) :
    TextOperation.transform op h = Return (op1, h1) ->
    transformed_against rest op1 op' ->
    transformed_against (h :: rest) op op'.

Definition receiveOperation (revision : Z) (operation : T) : M t T :=
  ops <- gets operations ;;
  if (revision <? 0) || (Z.of_nat (length ops) <? revision)
  then throw (Error "operation revision not in history")
  else
    let concurrentOperations := drop (Z.to_nat revision) ops in
    operation' <- lift (transformLoop concurrentOperations operation) ;;
    doc <- gets document ;;
    doc' <- lift (TextOperation.apply operation' doc) ;;
    modify (set_document doc') ;;;
    modify (push_operation operation') ;;;
    ret operation'.

(** Applying a history to a document, oldest operation first. *)
Fixpoint replay (history : list T) (doc : string) : completion string :=
  match history with
  | [] => Return doc
  | o :: rest =>
      match TextOperation.apply o doc with
      | Return doc' => replay rest doc'
      | Throw e => Throw e
      end
  end.

End Server.
Global Arguments t T : clear implicits.
End Server.

(** ** Client ([src/lib/client.ts]) *)

Module Client.
Section Client.
Context {T : Type} `{!TextOperation.API T}.

(** The three classes that implement [ClientState], with their fields. *)
Inductive ClientState : Type :=
| SynchronizedState
| AwaitingConfirm (outstanding : T)
| AwaitingConfirmWithBuffer (outstanding buffer : T).

(** The two abstract methods the embedder provides.  The model records the
    calls made to them, in order. *)
Inductive call : Type :=
| sendOperation (revision : Z) (operation : T)
| applyOperation (operation : T).

Record t : Type := mk {
  state : ClientState;
  revision : Z;
  calls : list call;
}.

Definition emit (c : call) : M t unit :=
  modify (fun client => mk (state client) (revision client) (calls client ++ [c])).

(** [new C(args)] for a client state: the identifier [C] is looked up in the
    scope of [client.ts], and reading an identifier that no scope binds
    raises a ReferenceError.  The file imports [TextOperation] and declares
    [SynchronizedState], [synchronized_], [AwaitingConfirm],
    [AwaitingConfirmWithBuffer] and [Client]; the three state classes are
    the ones it constructs, each with its declared number of arguments.  Any
    other name it could pass to [new] for a state is unbound. *)
Definition new (C : string) (args : list T) : completion ClientState :=
  match C, args with
  | "SynchronizedState", [] => Return SynchronizedState
  | "AwaitingConfirm", [outstanding] => Return (AwaitingConfirm outstanding)
  | "AwaitingConfirmWithBuffer", [outstanding; buffer] =>
      Return (AwaitingConfirmWithBuffer outstanding buffer)
  | _, _ => Throw (ReferenceError (C +:+ " is not defined"))
  end.

(** *** class SynchronizedState *)

Definition SynchronizedState_applyClient (operation : T) : M t ClientState :=
  rev <- gets revision ;;
  emit (sendOperation rev operation) ;;;
  lift (new "AwaitingConfirm" [operation]).

Definition SynchronizedState_applyServer (operation : T) : M t ClientState :=
  emit (applyOperation operation) ;;;
  ret SynchronizedState.

Definition SynchronizedState_serverAck : M t ClientState :=
  throw (Error "There is no pending operation.").

(** *** class AwaitingConfirm *)

Definition AwaitingConfirm_applyClient (outstanding operation : T)
  : M t ClientState :=
  lift (new "AwaitingConfirmWithBuffer" [outstanding; operation]).

Definition AwaitingConfirm_applyServer (outstanding operation : T)
  : M t ClientState :=
  pr <- lift (TextOperation.transform outstanding operation) ;;
  emit (applyOperation (snd pr)) ;;;
  lift (new "AwaitingConfirm" [fst pr]).

Definition AwaitingConfirm_serverAck : M t ClientState :=
  ret SynchronizedState.

Definition AwaitingConfirm_resend (outstanding : T) : M t unit :=
  rev <- gets revision ;;
  emit (sendOperation rev outstanding).

(** *** class AwaitingConfirmWithBuffer *)

Definition AwaitingConfirmWithBuffer_applyClient (outstanding buffer operation : T)
  : M t ClientState :=
  newBuffer <- lift (TextOperation.compose buffer operation) ;;
  lift (new "AwaitingConfirmWithBuffer" [outstanding; newBuffer]).

(** Lines 110-133.  [operation.constructor.transform] is the static
    [TextOperation.transform]; the last line constructs [AwaitingWithBuffer]. *)
Definition AwaitingConfirmWithBuffer_applyServer (outstanding buffer operation : T)
  : M t ClientState :=
  pair1 <- lift (TextOperation.transform outstanding operation) ;;
  pair2 <- lift (TextOperation.transform buffer (snd pair1)) ;;
  emit (applyOperation (snd pair2)) ;;;
  lift (new "AwaitingWithBuffer" [fst pair1; fst pair2]).

Definition AwaitingConfirmWithBuffer_serverAck (buffer : T) : M t ClientState :=
  rev <- gets revision ;;
  emit (sendOperation rev buffer) ;;;
  lift (new "AwaitingConfirm" [buffer]).

Definition AwaitingConfirmWithBuffer_resend (outstanding : T) : M t unit :=
  rev <- gets revision ;;
  emit (sendOperation rev outstanding).

(** *** Method lookup on [this.state] *)

Definition state_applyClient (st : ClientState) (operation : T) : M t ClientState :=
  match st with
  | SynchronizedState => SynchronizedState_applyClient operation
  | AwaitingConfirm o => AwaitingConfirm_applyClient o operation
  | AwaitingConfirmWithBuffer o b => AwaitingConfirmWithBuffer_applyClient o b operation
  end.

Definition state_applyServer (st : ClientState) (operation : T) : M t ClientState :=
  match st with
  | SynchronizedState => SynchronizedState_applyServer operation
  | AwaitingConfirm o => AwaitingConfirm_applyServer o operation
  | AwaitingConfirmWithBuffer o b => AwaitingConfirmWithBuffer_applyServer o b operation
  end.

Definition state_serverAck (st : ClientState) : M t ClientState :=
  match st with
  | SynchronizedState => SynchronizedState_serverAck
  | AwaitingConfirm _ => AwaitingConfirm_serverAck
  | AwaitingConfirmWithBuffer _ b => AwaitingConfirmWithBuffer_serverAck b
  end.

(** [resend?] is optional in the interface: [SynchronizedState] has no such
    property, so reading it gives [undefined]. *)
Definition state_resend (st : ClientState) : option (M t unit) :=
  match st with
  | SynchronizedState => None
  | AwaitingConfirm o => Some (AwaitingConfirm_resend o)
  | AwaitingConfirmWithBuffer o _ => Some (AwaitingConfirmWithBuffer_resend o)
  end.

(** *** class Client *)

Definition setState (st : ClientState) : M t unit :=
  modify (fun client => mk st (revision client) (calls client)).

(** [this.revision++] *)
Definition incr_revision : M t unit :=
  modify (fun client => mk (state client) (revision client + 1) (calls client)).

Definition applyClient (operation : T) : M t unit :=
  st <- gets state ;;
  st' <- state_applyClient st operation ;;
  setState st'.

Definition applyServer (operation : T) : M t unit :=
  incr_revision ;;;
  st <- gets state ;;
  st' <- state_applyServer st operation ;;
  setState st'.

Definition serverAck : M t unit :=
  incr_revision ;;;
  st <- gets state ;;
  st' <- state_serverAck st ;;
  setState st'.

(** [this.state?.resend(this)]: the optional chain guards [this.state], which
    always holds a state object, so the property [resend] is read and then
    called; calling [undefined] raises a TypeError. *)
Definition serverReconnect : M t unit :=
  st <- gets state ;;
  match state_resend st with
  | Some resend => resend
  | None => throw (TypeError "this.state.resend is not a function")
  end.

(** [new Client(revision)]: the state starts as [synchronized_]. *)
Definition create (revision : Z) : t := mk SynchronizedState revision [].

(** Sequences of what reaches a client: the user's edits, other clients'
    operations from the server, and acknowledgements.  The events are
    handled in order; an exception ends the sequence. *)
Inductive event : Type :=
| ApplyClient (operation : T)
| ApplyServer (operation : T)
| ServerAck.

Definition handle (e : event) : M t unit :=
  match e with
  | ApplyClient operation => applyClient operation
  | ApplyServer operation => applyServer operation
  | ServerAck => serverAck
  end.

Fixpoint run (events : list event) : M t unit :=
  match events with
  | [] => ret tt
  | e :: rest => handle e ;;; run rest
  end.

Definition is_send (c : call) : bool :=
  match c with sendOperation _ _ => true | applyOperation _ => false end.

Definition is_ack (e : event) : bool :=
  match e with ServerAck => true | _ => false end.

Definition from_server (e : event) : bool :=
  match e with ApplyClient _ => false | _ => true end.

(** Number of [sendOperation] calls made so far. *)
Definition sent (client : t) : nat := length (filter is_send (calls client)).

(** Number of operations the state holds as sent and not acknowledged. *)
Definition outstanding_count (st : ClientState) : nat :=
  match st with
  | SynchronizedState => 0
  | AwaitingConfirm _ | AwaitingConfirmWithBuffer _ _ => 1
  end.

End Client.
Global Arguments t T : clear implicits.
Global Arguments ClientState T : clear implicits.
Global Arguments call T : clear implicits.
Global Arguments event T : clear implicits.
End Client.

(** ** UndoManager *)

Module UndoManager.
Section UndoManager.
Context {T : Type} `{!TextOperation.API T}.

(** The loop of [transformStack]: [n] is [i + 1], so the entries
    [stack[0 .. n-1]] are still to be visited and [stack[n-1]] is next;
    [newStack.push] appends. *)
Fixpoint transformStack_loop (stack : list T) (n : nat) (newStack : list T)
  (operation : T) : completion (list T) :=
  match n with
  | O => Return newStack
  | S i =>
      match stack !! i with
      | None => Throw (TypeError "stack[i] is undefined") (* i < stack.length *)
      | Some entry =>
          match TextOperation.transform entry operation with
          | Throw e => Throw e
          | Return pr =>
              let newStack' :=
                if negb (TextOperation.isNoop (fst pr))
                then newStack ++ [fst pr] else newStack in
              transformStack_loop stack i newStack' (snd pr)
          end
      end
  end.

Definition transformStack (stack : list T) (operation : T) : completion (list T) :=
  match transformStack_loop stack (length stack) [] operation with
  | Return newStack => Return (reverse newStack)
  | Throw e => Throw e
  end.

Inductive UndoManagerState : Type :=
| NORMAL_STATE
| UNDOING_STATE
| REDOING_STATE.

Record t : Type := mk {
  state : UndoManagerState;
  dontCompose : bool;
  undoStack : list T;
  redoStack : list T;
  maxItems : Z;
}.

(** [new UndoManager(maxItems)] *)
Definition create (maxItems : Z) : t := mk NORMAL_STATE false [] [] maxItems.

Definition set_state (st : UndoManagerState) (m : t) : t :=
  mk st (dontCompose m) (undoStack m) (redoStack m) (maxItems m).

Definition set_dontCompose (b : bool) (m : t) : t :=
  mk (state m) b (undoStack m) (redoStack m) (maxItems m).

Definition set_undoStack (s : list T) (m : t) : t :=
  mk (state m) (dontCompose m) s (redoStack m) (maxItems m).

Definition set_redoStack (s : list T) (m : t) : t :=
  mk (state m) (dontCompose m) (undoStack m) s (maxItems m).

(** Array methods on the two stacks: [push] appends, [pop] removes and
    returns the last element, [shift] removes the first. *)
Definition undoStack_push (o : T) : M t unit :=
  modify (fun m => set_undoStack (undoStack m ++ [o]) m).

Definition redoStack_push (o : T) : M t unit :=
  modify (fun m => set_redoStack (redoStack m ++ [o]) m).

Definition undoStack_pop : M t (option T) :=
  s <- gets undoStack ;;
  modify (set_undoStack (removelast s)) ;;;
  ret (last s).

Definition redoStack_pop : M t (option T) :=
  s <- gets redoStack ;;
  modify (set_redoStack (removelast s)) ;;;
  ret (last s).

Definition undoStack_shift : M t unit :=
  modify (fun m => set_undoStack (drop 1 (undoStack m)) m).

(** A popped element the code goes on to use; both call sites have checked
    that the stack is not empty. *)
Definition popped (o : option T) : M t T :=
  match o with
  | Some v => ret v
  | None => throw (TypeError "undefined is not an operation")
  end.

Definition add (operation : T) (compose : bool) : M t unit :=
  st <- gets state ;;
  match st with
  | UNDOING_STATE =>
      redoStack_push operation ;;;
      modify (set_dontCompose true)
  | REDOING_STATE =>
      undoStack_push operation ;;;
      modify (set_dontCompose true)
  | NORMAL_STATE =>
      dc <- gets dontCompose ;;
      s <- gets undoStack ;;
      (if negb dc && compose && (0 <? Z.of_nat (length s))
       then
         top <- bind undoStack_pop popped ;;
         composed <- lift (TextOperation.compose operation top) ;;
         undoStack_push composed
       else
         undoStack_push operation ;;;
         s' <- gets undoStack ;;
         mx <- gets maxItems ;;
         if mx <? Z.of_nat (length s') then undoStack_shift else ret tt) ;;;
      modify (set_dontCompose false) ;;;
      modify (set_redoStack [])
  end.

Definition transform (operation : T) : M t unit :=
  s <- gets undoStack ;;
  s' <- lift (transformStack s operation) ;;
  modify (set_undoStack s') ;;;
  r <- gets redoStack ;;
  r' <- lift (transformStack r operation) ;;
  modify (set_redoStack r').

(** The callback [fn] runs against the manager: it is expected to call
    [add], and nothing stops it from calling any other method. *)
Definition performUndo (fn : T -> M t unit) : M t unit :=
  modify (set_state UNDOING_STATE) ;;;
  s <- gets undoStack ;;
  if Z.of_nat (length s) =? 0
  then throw (Error "undo not possible")
  else
    top <- bind undoStack_pop popped ;;
    fn top ;;;
    modify (set_state NORMAL_STATE).

Definition performRedo (fn : T -> M t unit) : M t unit :=
  modify (set_state REDOING_STATE) ;;;
  s <- gets redoStack ;;
  if Z.of_nat (length s) =? 0
  then throw (Error "redo not possible")
  else
    top <- bind redoStack_pop popped ;;
    fn top ;;;
    modify (set_state NORMAL_STATE).

Definition canUndo (m : t) : bool := negb (Z.of_nat (length (undoStack m)) =? 0).
Definition canRedo (m : t) : bool := negb (Z.of_nat (length (redoStack m)) =? 0).

Definition isUndoing (m : t) : bool :=
  match state m with UNDOING_STATE => true | _ => false end.

Definition isRedoing (m : t) : bool :=
  match state m with REDOING_STATE => true | _ => false end.

(** [transformStack] as the specification words it: walk the entries from
    the top of the stack down, transform each against the running operation
    (entry first), carry the second component on, drop the entries that
    became noops.  The result of the walk lists the kept entries top first. *)
Fixpoint spec_walk (top_first : list T) (operation : T) : completion (list T) :=
  match top_first with
  | [] => Return []
  | entry :: below =>
      match TextOperation.transform entry operation with
      | Throw e => Throw e
      | Return (entry', operation') =>
          match spec_walk below operation' with
          | Throw e => Throw e
          | Return kept =>
              Return (if TextOperation.isNoop entry' then kept else entry' :: kept)
          end
      end
  end.

Definition spec_transformStack (stack : list T) (operation : T) : completion (list T) :=
  match spec_walk (reverse stack) operation with
  | Return kept => Return (reverse kept)
  | Throw e => Throw e
  end.

(** Sequences of calls on one manager.  The callback of [performUndo] and
    [performRedo] is given by the [add] calls it makes for the operation it
    receives. *)
Inductive call : Type :=
| Add (operation : T) (compose : bool)
| Transform (operation : T)
| PerformUndo (fn : T -> list (T * bool))
| PerformRedo (fn : T -> list (T * bool)).

Fixpoint adds (l : list (T * bool)) : M t unit :=
  match l with
  | [] => ret tt
  | (operation, compose) :: rest => add operation compose ;;; adds rest
  end.

Definition run_call (c : call) : M t unit :=
  match c with
  | Add operation compose => add operation compose
  | Transform operation => transform operation
  | PerformUndo fn => performUndo (fun top => adds (fn top))
  | PerformRedo fn => performRedo (fun top => adds (fn top))
  end.

(** The calls are made in order; an exception ends the sequence. *)
Fixpoint run (calls : list call) : M t unit :=
  match calls with
  | [] => ret tt
  | c :: rest => run_call c ;;; run rest
  end.

(** A callback that calls [add] at most once: once, as [performUndo]'s
    comment expects of it, or not at all. *)
Definition adds_at_most_once (c : call) : Prop :=
  match c with
  | PerformUndo fn | PerformRedo fn => forall top, (length (fn top) <= 1)%nat
  | _ => True
  end.

(** The two stacks together hold at most [maxItems] entries. *)
Definition within_bound (m : t) : Prop :=
  Z.of_nat (length (undoStack m)) + Z.of_nat (length (redoStack m)) <= maxItems m.

(** Each stack on its own holds at most [maxItems] entries. *)
Definition each_within_bound (m : t) : Prop :=
  Z.of_nat (length (undoStack m)) <= maxItems m
  /\ Z.of_nat (length (redoStack m)) <= maxItems m.

(** What a call made on [m] keeps: the bound, [maxItems] itself, and, when
    the call returns, Normal mode. *)
Definition keeps_bound (m : t) (r : t * completion unit) : Prop :=
  within_bound (fst r)
  /\ maxItems (fst r) = maxItems m
  /\ (snd r = Return tt -> state (fst r) = NORMAL_STATE).

End UndoManager.
Global Arguments t T : clear implicits.
Global Arguments call T : clear implicits.
End UndoManager.

(** ** Range *)

Module Range.

Record t : Type := mk {
  anchor : Z;
  head : Z;
}.

Definition equals (this other : t) : bool :=
  (anchor this =? anchor other) && (head this =? head other).

Definition isEmpty (this : t) : bool := anchor this =? head this.

(** The loop of [transformIndex] from component [i] on, with the current
    values of [index] and [newIndex].  A string is an insert; a number is a
    retain when [isRetain] says so and otherwise goes to the last branch,
    which negates it. *)
Fixpoint transformIndex_loop (ops : list Op) (index newIndex : Z) : Z :=
  match ops with
  | [] => newIndex
  | op :: rest =>
      let '(index', newIndex') :=
        match op with
        | OpNum n =>
            if isRetain op then (index - n, newIndex)
            else (index + n, newIndex - Z.min index (- n))
        | OpStr s => (index, newIndex + Z.of_nat (String.length s))
        end in
      if index' <? 0 then newIndex' else transformIndex_loop rest index' newIndex'
  end.

Definition transformIndex (ops : list Op) (index : Z) : Z :=
  transformIndex_loop ops index index.

(** The specification's view of a component, and the position rule as the
    specification words it. *)
Inductive Component : Type :=
| Retain (n : Z)
| Insert (s : string)
| Delete (n : Z).

Definition component (op : Op) : Component :=
  match op with
  | OpNum n => if 0 <? n then Retain n else Delete (- n)
  | OpStr s => Insert s
  end.

Fixpoint spec_walk (cs : list Component) (index newIndex : Z) : Z :=
  match cs with
  | [] => newIndex
  | c :: rest =>
      let index' :=
        match c with
        | Retain n => index - n
        | Insert _ => index
        | Delete n => index - n
        end in
      let newIndex' :=
        match c with
        | Retain _ => newIndex
        | Insert s => newIndex + Z.of_nat (String.length s)
        | Delete n => newIndex - Z.min index n
        end in
      if index' <? 0 then newIndex' else spec_walk rest index' newIndex'
  end.

Definition spec_position (cs : list Component) (index : Z) : Z :=
  spec_walk cs index index.

Section Transform.
Context {T : Type} `{!TextOperation.API T}.

Definition transform (this : t) (other : T) : t :=
  let newAnchor := transformIndex (TextOperation.ops other) (anchor this) in
  if anchor this =? head this
  then mk newAnchor newAnchor
  else mk newAnchor (transformIndex (TextOperation.ops other) (head this)).

End Transform.

End Range.

(** ** Selection

    A [Selection] holds a reference to an array of ranges; the constructor
    stores the array it is given, and [Array.prototype.sort] reorders an
    array in place.  Arrays therefore live in a store, addressed by
    location. *)

Module Selection.

Definition loc : Type := positive.

Abbreviation store := (gmap loc (list Range.t)).

Record t : Type := mk {
  ranges : loc;
}.

(** The array at a location ([[]] for a location nothing was stored at). *)
Definition array (h : store) (l : loc) : list Range.t :=
  default [] (h !! l).

(** The comparator passed to [sort] in [sortRanges]. *)
Definition compareRanges (a b : Range.t) : Z :=
  if Range.anchor a <? Range.anchor b then -1
  else if (Range.anchor a =? Range.anchor b) && (Range.head a <? Range.head b) then -1
  else 1.

(** The order the comparator stands for: by anchor, then by head. *)
Definition range_le (a b : Range.t) : Prop :=
  Range.anchor a < Range.anchor b
  \/ (Range.anchor a = Range.anchor b /\ Range.head a <= Range.head b).

(** [Array.prototype.sort(comparefn)] on the elements of an array: an
    insertion sort that puts an element before the first one it compares
    below. *)
Fixpoint sort_insert {A} (comparefn : A -> A -> Z) (x : A) (sorted : list A) : list A :=
  match sorted with
  | [] => [x]
  | y :: rest =>
      if comparefn x y <? 0 then x :: y :: rest
      else y :: sort_insert comparefn x rest
  end.

Definition Array_sort {A} (comparefn : A -> A -> Z) (l : list A) : list A :=
  foldr (sort_insert comparefn) [] l.

(** [sortRanges(ranges)]: sorts the array [ranges] refers to, in place, and
    returns the same reference. *)
Definition sortRanges (ranges : loc) : M store loc :=
  modify (fun h => <[ranges := Array_sort compareRanges (array h ranges)]> h) ;;;
  ret ranges.

(** The comparison loop of [equals], lines 216-220.  It runs over
    [sortedRanges1]; the two arrays have the same length when it starts. *)
Fixpoint equals_loop (sortedRanges1 sortedRanges2 : list Range.t) : bool :=
  match sortedRanges1, sortedRanges2 with
  | [], _ => true
  | r1 :: rest1, r2 :: rest2 =>
      if negb (Range.equals r1 r2) then false else equals_loop rest1 rest2
  | _ :: _, [] => false
  end.

Definition equals (this other : t) : M store bool :=
  h <- get ;;
  if negb (length (array h (ranges this)) =? length (array h (ranges other)))%nat
  then ret false
  else
    sortedRanges1 <- sortRanges (ranges this) ;;
    sortedRanges2 <- sortRanges (ranges other) ;;
    h' <- get ;;
    ret (equals_loop (array h' sortedRanges1) (array h' sortedRanges2)).

(** An array built by a function ([[]], an array literal) is a new object:
    it goes to a location the store does not use yet. *)
Definition alloc (a : list Range.t) : M store loc :=
  fun h => let l := fresh (dom h) in (<[l := a]> h, Return l).

(** [Selection.createCursor(position)] *)
Definition createCursor (position : Z) : M store t :=
  l <- alloc [Range.mk position position] ;;
  ret (mk l).

(** [this.ranges.some((r) => !r.isEmpty())] *)
Definition somethingSelected (this : t) : M store bool :=
  h <- get ;;
  ret (existsb (fun r => negb (Range.isEmpty r)) (array h (ranges this))).

Definition compose (this other : t) : t := other.

Section Transform.
Context {T : Type} `{!TextOperation.API T}.

(** [newRanges[i] = this.ranges[i].transform(other)] for every index of
    [this.ranges], into a new array. *)
Definition transform (this : t) (other : T) : M store t :=
  h <- get ;;
  l <- alloc (map (fun r => Range.transform r other) (array h (ranges this))) ;;
  ret (mk l).

End Transform.

End Selection.

(** ** Client.transformSelection ([src/lib/client.ts], lines 36-39, 83-85,
    142-144 and 202-204)

    The parameter is untyped in the source; the methods call
    [selection.transform], which is [Selection]'s.  The methods read the
    client and change only the store of arrays. *)

Module ClientSelection.
Section ClientSelection.
Context {T : Type} `{!TextOperation.API T}.





End ClientSelection.
End ClientSelection.

(** ** A TextOperation implementation

    Modelled from the spec: [text-operation.ts] is not among the sources.
    This module follows section 4.1 of the specification (components,
    [baseLength] / [targetLength], the builder that merges adjacent
    components of one kind, [apply], the case table of [compose], and
    [transform] with the first argument's insert first).  It instantiates the
    interface above so that the theorems can be run on concrete operations;
    no theorem about the client, the server, the undo manager or selections
    depends on it. *)

Module TextOp.

Definition t : Type := list Op.

(** Number of characters a component covers. *)
Definition olength (op : Op) : Z :=
  match op with
  | OpNum n => Z.abs n
  | OpStr s => Z.of_nat (String.length s)
  end.

Definition baseLength (o : t) : Z :=
  foldr (fun op acc => match op with OpNum n => Z.abs n + acc | OpStr _ => acc end) 0 o.

Definition targetLength (o : t) : Z :=
  foldr (fun op acc =>
           match op with
           | OpNum n => if 0 <? n then n + acc else acc
           | OpStr s => Z.of_nat (String.length s) + acc
           end) 0 o.

(** The builder.  While an operation is being built its components are kept
    last-first, so the head of [acc] is the last component.  Appending
    nothing changes nothing, a component merges with a last component of its
    kind, and a delete that meets an insert goes before it (delete before
    insert at one position). *)
Definition b_retain (n : Z) (acc : list Op) : list Op :=
  if n =? 0 then acc else
  match acc with
  | OpNum m :: rest => if 0 <? m then OpNum (m + n) :: rest else OpNum n :: acc
  | _ => OpNum n :: acc
  end.

Definition b_insert (s : string) (acc : list Op) : list Op :=
  if (String.length s =? 0)%nat then acc else
  match acc with
  | OpStr s0 :: rest => OpStr (s0 +:+ s) :: rest
  | _ => OpStr s :: acc
  end.

Definition b_delete (n : Z) (acc : list Op) : list Op :=
  if n =? 0 then acc else
  match acc with
  | OpNum m :: rest => if m <? 0 then OpNum (m - n) :: rest else OpNum (- n) :: acc
  | OpStr s :: OpNum m :: rest =>
      if m <? 0 then OpStr s :: OpNum (m - n) :: rest
      else OpStr s :: OpNum (- n) :: OpNum m :: rest
  | OpStr s :: rest => OpStr s :: OpNum (- n) :: rest
  | [] => [OpNum (- n)]
  end.

(** What is left of a component after its first [k] characters, and of a
    list of components after the first [k] characters of its head. *)
Definition shorten (k : Z) (op : Op) : Op :=
  match op with
  | OpNum n => if 0 <? n then OpNum (n - k) else OpNum (n + k)
  | OpStr s => OpStr (String.substring (Z.to_nat k) (String.length s - Z.to_nat k) s)
  end.

Definition advance (k : Z) (o : list Op) : list Op :=
  match o with
  | [] => []
  | op :: rest => if olength op <=? k then rest else shorten k op :: rest
  end.

Fixpoint apply_loop (o : list Op) (str : string) : string :=
  match o with
  | [] => ""
  | OpNum n :: rest =>
      if 0 <? n
      then String.substring 0 (Z.to_nat n) str
             +:+ apply_loop rest (String.substring (Z.to_nat n) (String.length str - Z.to_nat n) str)
      else apply_loop rest (String.substring (Z.to_nat (- n)) (String.length str - Z.to_nat (- n)) str)
  | OpStr s :: rest => s +:+ apply_loop rest str
  end.

Definition apply (o : t) (str : string) : completion string :=
  if Z.of_nat (String.length str) =? baseLength o
  then Return (apply_loop o str)
  else Throw (Error "LengthMismatch").

Fixpoint compose_loop (fuel : nat) (ops1 ops2 acc : list Op) : completion (list Op) :=
  match fuel with
  | O => Throw (Error "MalformedOperation")
  | S fuel =>
      match ops1, ops2 with
      | [], [] => Return acc
      | [], op2 :: rest2 =>
          match op2 with
          | OpStr s => compose_loop fuel [] rest2 (b_insert s acc)
          | OpNum _ => Throw (Error "MalformedOperation")
          end
      | op1 :: rest1, _ =>
          if isDelete op1 then compose_loop fuel rest1 ops2 (b_delete (olength op1) acc)
          else
            match ops2 with
            | [] => Throw (Error "MalformedOperation")
            | OpStr s :: rest2 => compose_loop fuel ops1 rest2 (b_insert s acc)
            | op2 :: _ =>
                let k := Z.min (olength op1) (olength op2) in
                let acc' :=
                  match op1 with
                  | OpNum _ => if isRetain op2 then b_retain k acc else b_delete k acc
                  | OpStr s =>
                      if isRetain op2 then b_insert (String.substring 0 (Z.to_nat k) s) acc else acc
                  end in
                compose_loop fuel (advance k ops1) (advance k ops2) acc'
            end
      end
  end.

Definition compose (a b : t) : completion t :=
  if targetLength a =? baseLength b
  then match compose_loop (S (length a + length b)) a b [] with
       | Return acc => Return (reverse acc)
       | Throw e => Throw e
       end
  else Throw (Error "LengthMismatch").

Fixpoint transform_loop (fuel : nat) (ops1 ops2 acc1 acc2 : list Op)
  : completion (list Op * list Op) :=
  match fuel with
  | O => Throw (Error "MalformedOperation")
  | S fuel =>
      match ops1, ops2 with
      | [], [] => Return (acc1, acc2)
      | OpStr s :: rest1, _ =>
          transform_loop fuel rest1 ops2 (b_insert s acc1) (b_retain (olength (OpStr s)) acc2)
      | _, OpStr s :: rest2 =>
          transform_loop fuel ops1 rest2 (b_retain (olength (OpStr s)) acc1) (b_insert s acc2)
      | [], _ => Throw (Error "MalformedOperation")
      | _, [] => Throw (Error "MalformedOperation")
      | op1 :: _, op2 :: _ =>
          let k := Z.min (olength op1) (olength op2) in
          let '(acc1', acc2') :=
            match isRetain op1, isRetain op2 with
            | true, true => (b_retain k acc1, b_retain k acc2)
            | false, false => (acc1, acc2)
            | false, true => (b_delete k acc1, acc2)
            | true, false => (acc1, b_delete k acc2)
            end in
          transform_loop fuel (advance k ops1) (advance k ops2) acc1' acc2'
      end
  end.

Definition transform (a b : t) : completion (t * t) :=
  if baseLength a =? baseLength b
  then match transform_loop (S (length a + length b)) a b [] [] with
       | Return (acc1, acc2) => Return (reverse acc1, reverse acc2)
       | Throw e => Throw e
       end
  else Throw (Error "LengthMismatch").

Definition isNoop (o : t) : bool :=
  match o with
  | [] => true
  | [op] => isRetain op
  | _ => false
  end.

#[global] Instance api : TextOperation.API t := {|
  TextOperation.transform := transform;
  TextOperation.compose := compose;
  TextOperation.apply := apply;
  TextOperation.isNoop := isNoop;
  TextOperation.ops := fun o => o;
|}.

End TextOp.

(** ** Concrete scenarios

    Operations, clients, servers, managers and selections on which the
    theorems below are run, over the implementation [TextOp]. *)

Module Scenario.

(** Scenario S4: the document is "ab"; [opA] and [opB] are this client's
    edits, [opC] another client's. *)
Definition opA : TextOp.t := [OpStr "X"; OpNum 2].
Definition opB : TextOp.t := [OpNum 3; OpStr "Z"].
Definition opC : TextOp.t := [OpNum 2; OpStr "Y"].

(** The client of S4 after [applyClient(A)] and [applyClient(B)]. *)
Definition buffering : Client.t TextOp.t :=
  Client.mk (Client.AwaitingConfirmWithBuffer opA opB) 7 [Client.sendOperation 7 opA].

(** Scenario S5: the server after client X's insert of "hi" at revision 0,
    and client Y's insert of "yo", also made at revision 0. *)
Definition hi : TextOp.t := [OpStr "hi"].
Definition yo : TextOp.t := [OpStr "yo"].
Definition server1 : Server.t TextOp.t := Server.mk "hi" [hi].

(** An operation for a five-character document. *)
Definition retain5 : TextOp.t := [OpNum 5].

(** Inverses of three successive one-character inserts ("x", "y", "z") at
    the end of "ab". *)
Definition inv1 : TextOp.t := [OpNum 2; OpNum (-1)].
Definition inv2 : TextOp.t := [OpNum 3; OpNum (-1)].
Definition inv3 : TextOp.t := [OpNum 4; OpNum (-1)].

(** A manager that holds [inv1] and may compose. *)
Definition one_edit : UndoManager.t TextOp.t :=
  UndoManager.mk UndoManager.NORMAL_STATE false [inv1] [] 2.

(** A session in which each undo and redo callback adds one inverse or
    none: three edits, an undo, a remote insert at the front of "abxy", a
    redo, and an undo whose callback adds nothing. *)
Definition polite : list (UndoManager.call TextOp.t) :=
  [UndoManager.Add inv1 false;
   UndoManager.Add inv2 false;
   UndoManager.Add inv3 false;
   UndoManager.PerformUndo (fun _ => [([OpNum 4; OpStr "z"], false)]);
   UndoManager.Transform [OpStr "!"; OpNum 4];
   UndoManager.PerformRedo (fun _ => [([OpNum 5; OpNum (-1)], false)]);
   UndoManager.PerformUndo (fun _ => [])].

(** A session whose undo callback calls [add] twice. *)
Definition adds_twice : list (UndoManager.call TextOp.t) :=
  [UndoManager.Add inv1 false;
   UndoManager.PerformUndo (fun top => [(top, false); (top, false)])].

(** "hello world" becomes "hello there". *)
Definition there : TextOp.t := [OpNum 6; OpNum (-5); OpStr "there"].

(** Two selections holding the same two cursors in different orders. *)
Definition ranges1 : Selection.loc := 1%positive.
Definition ranges2 : Selection.loc := 2%positive.
Definition cursors : Selection.store :=
  <[ranges1 := [Range.mk 5 5; Range.mk 1 1]]>
    (<[ranges2 := [Range.mk 1 1; Range.mk 5 5]]> ∅).

(** A client waiting for the acknowledgement of [opA]. *)
Definition awaiting : Client.t TextOp.t :=
  Client.mk (Client.AwaitingConfirm opA) 7 [Client.sendOperation 7 opA].

(** An edit, another client's operation, the acknowledgement, a second
    edit and its acknowledgement. *)
Definition session : list (Client.event TextOp.t) :=
  [Client.ApplyClient opA; Client.ApplyServer opC; Client.ServerAck;
   Client.ApplyClient [OpNum 4; OpStr "Z"]; Client.ServerAck].

(** A manager holding two inverses of which the upper one does not fit
    [inv3] (their lengths do not match). *)
Definition two_edits : UndoManager.t TextOp.t :=
  UndoManager.mk UndoManager.NORMAL_STATE false [inv1; inv2] [] 2.

(** The two selections of [cursors]. *)
Definition selection1 : Selection.t := Selection.mk ranges1.
Definition selection2 : Selection.t := Selection.mk ranges2.

End Scenario.

(** * Properties *)

(** ** Server *)

Section ServerFacts.
Context {T : Type} `{!TextOperation.API T}.

Lemma transformLoop_sound (cs : list T) (op op' : T) :
  Server.transformLoop cs op = Return op' -> Server.transformed_against cs op op'.
Proof.
  revert op. induction cs as [|h rest IH]; intros op Hloop; simpl in Hloop.
  - injection Hloop as ->. constructor.
  - destruct (TextOperation.transform op h) as [[op1 h1]|e] eqn:Htr; [|discriminate].
    econstructor; [exact Htr|]. apply IH. exact Hloop.
Qed.

Lemma transformLoop_complete (cs : list T) (op op' : T) :
  Server.transformed_against cs op op' -> Server.transformLoop cs op = Return op'.
Proof.
  induction 1 as [op|h rest op op1 h1 op' Htr _ IH]; simpl.
  - reflexivity.
  - rewrite Htr. exact IH.
Qed.

Lemma receiveOperation_out_of_range (s : Server.t T) (revision : Z) (op : T) :
  revision < 0 \/ Z.of_nat (length (Server.operations s)) < revision ->
  Server.receiveOperation revision op s
    = (s, Throw (Error "operation revision not in history")).
Proof.
  intros Hrange. unfold Server.receiveOperation, bind, gets.
  assert (((revision <? 0) || (Z.of_nat (length (Server.operations s)) <? revision)) = true)
    as -> by (apply orb_true_iff; destruct Hrange; [left|right]; lia).
  reflexivity.
Qed.

Lemma receiveOperation_in_range (s : Server.t T) (revision : Z) (op : T) :
  0 <= revision <= Z.of_nat (length (Server.operations s)) ->
  Server.receiveOperation revision op s
    = match Server.transformLoop (drop (Z.to_nat revision) (Server.operations s)) op with
      | Throw e => (s, Throw e)
      | Return op' =>
          match TextOperation.apply op' (Server.document s) with
          | Throw e => (s, Throw e)
          | Return doc' => (Server.mk doc' (Server.operations s ++ [op']), Return op')
          end
      end.
Proof.
  intros Hrange. unfold Server.receiveOperation, bind, gets.
  assert (((revision <? 0) || (Z.of_nat (length (Server.operations s)) <? revision)) = false)
    as -> by (apply orb_false_iff; split; lia).
  unfold lift.
  destruct (Server.transformLoop _ op) as [op'|e]; [|reflexivity].
  destruct (TextOperation.apply op' (Server.document s)) as [doc'|e]; reflexivity.
Qed.

(** C3: [receiveOperation(revision, op)] throws when [revision < 0] or
    [revision > operations.length]; otherwise, when transforming [op]
    against [operations[revision..]] in order (first component of each pair)
    gives [op'] and [op'.apply(document)] gives [doc'], the call sets the
    document to [doc'], appends [op'] to the history and returns [op']. *)
Theorem receiveOperation_spec (s : Server.t T) (revision : Z) (op : T) :
  (revision < 0 \/ Z.of_nat (length (Server.operations s)) < revision ->
   Server.receiveOperation revision op s
     = (s, Throw (Error "operation revision not in history")))
  /\
  (0 <= revision <= Z.of_nat (length (Server.operations s)) ->
   forall op' doc',
     Server.transformed_against (drop (Z.to_nat revision) (Server.operations s)) op op' ->
     TextOperation.apply op' (Server.document s) = Return doc' ->
     Server.receiveOperation revision op s
       = (Server.mk doc' (Server.operations s ++ [op']), Return op')).
Proof.
  split.
  - apply receiveOperation_out_of_range.
  - intros Hrange op' doc' Hta Happly.
    rewrite receiveOperation_in_range by exact Hrange.
    rewrite (transformLoop_complete _ _ _ Hta), Happly. reflexivity.
Qed.

(** C10: when [receiveOperation] throws, whether at the revision check, in
    [transform] or in [apply], the server's document and history are what
    they were before the call. *)
Theorem receiveOperation_throw_unchanged
  (s s' : Server.t T) (revision : Z) (op : T) (e : exn) :
  Server.receiveOperation revision op s = (s', Throw e) -> s' = s.
Proof.
  intros Hthrow.
  destruct (Z_lt_dec revision 0) as [Hneg|Hnonneg];
    [|destruct (Z_lt_dec (Z.of_nat (length (Server.operations s))) revision) as [Hbig|Hsmall]].
  - rewrite receiveOperation_out_of_range in Hthrow by (left; exact Hneg). congruence.
  - rewrite receiveOperation_out_of_range in Hthrow by (right; exact Hbig). congruence.
  - rewrite receiveOperation_in_range in Hthrow by lia.
    destruct (Server.transformLoop _ op) as [op'|e1]; [|congruence].
    destruct (TextOperation.apply op' (Server.document s)) as [doc'|e2]; congruence.
Qed.

End ServerFacts.

(** ** Client *)

Section ClientFacts.
Context {T : Type} `{!TextOperation.API T}.

Import Client.

(** No class of [client.ts] is called [AwaitingWithBuffer]. *)
Lemma new_AwaitingWithBuffer (args : list T) :
  Client.new "AwaitingWithBuffer" args
    = Throw (ReferenceError "AwaitingWithBuffer is not defined").
Proof. reflexivity. Qed.

(** The sibling transition: in [AwaitingConfirm] a server operation is
    transformed against the outstanding one and the state is rebuilt. *)
Lemma applyServer_AwaitingConfirm (c : Client.t T) (o s o' s' : T) :
  state c = AwaitingConfirm o ->
  TextOperation.transform o s = Return (o', s') ->
  applyServer s c
    = (mk (AwaitingConfirm o') (revision c + 1) (calls c ++ [applyOperation s']),
       Return tt).
Proof.
  destruct c as [st rev cs]; simpl. intros -> Htr.
  unfold applyServer, bind, incr_revision, modify, gets; simpl.
  unfold AwaitingConfirm_applyServer, bind, lift. rewrite Htr. reflexivity.
Qed.

Lemma applyClient_AwaitingConfirm (c : Client.t T) (o op : T) :
  state c = AwaitingConfirm o ->
  applyClient op c
    = (mk (AwaitingConfirmWithBuffer o op) (revision c) (calls c), Return tt).
Proof. destruct c as [st rev cs]; simpl. intros ->. reflexivity. Qed.

(** C1: in the state [AwaitingConfirmWithBuffer(o, b)], [applyServer(s)]
    increments the revision, computes [(o', s') = transform(o, s)] and
    [(b', s'') = transform(b, s')], calls [applyOperation(s'')], and then
    fails to construct the next state: the call throws a ReferenceError and
    the client stays in [AwaitingConfirmWithBuffer(o, b)]. *)
Theorem applyServer_AwaitingConfirmWithBuffer
  (c : Client.t T) (o b s o' s' b' s'' : T) :
  state c = AwaitingConfirmWithBuffer o b ->
  TextOperation.transform o s = Return (o', s') ->
  TextOperation.transform b s' = Return (b', s'') ->
  applyServer s c
    = (mk (AwaitingConfirmWithBuffer o b) (revision c + 1)
          (calls c ++ [applyOperation s'']),
       Throw (ReferenceError "AwaitingWithBuffer is not defined")).
Proof.
  destruct c as [st rev cs]; simpl. intros -> Htr1 Htr2.
  unfold applyServer, bind, incr_revision, modify, gets; simpl.
  unfold AwaitingConfirmWithBuffer_applyServer, bind, lift.
  rewrite Htr1; simpl. rewrite Htr2; simpl. reflexivity.
Qed.

Lemma serverReconnect_resends (c : Client.t T) (o : T) :
  (state c = AwaitingConfirm o \/ exists b, state c = AwaitingConfirmWithBuffer o b) ->
  serverReconnect c
    = (mk (state c) (revision c) (calls c ++ [sendOperation (revision c) o]),
       Return tt).
Proof.
  destruct c as [st rev cs]; simpl.
  intros [-> | [b ->]]; reflexivity.
Qed.

(** C2: [serverReconnect] in the [SynchronizedState] throws a TypeError
    (the state has no [resend] to call) and changes nothing; in
    [AwaitingConfirm] and [AwaitingConfirmWithBuffer] it sends the
    outstanding operation with the current revision and leaves state and
    revision as they are. *)
Theorem serverReconnect_spec (c : Client.t T) :
  (state c = SynchronizedState ->
   serverReconnect c
     = (c, Throw (TypeError "this.state.resend is not a function")))
  /\
  (forall o,
     (state c = AwaitingConfirm o \/ exists b, state c = AwaitingConfirmWithBuffer o b) ->
     serverReconnect c
       = (mk (state c) (revision c) (calls c ++ [sendOperation (revision c) o]),
          Return tt)).
Proof.
  split.
  - destruct c as [st rev cs]; simpl. intros ->. reflexivity.
  - intros o. apply serverReconnect_resends.
Qed.

(** C9: [serverAck] in the [SynchronizedState] throws "There is no pending
    operation." after the revision has been incremented; the state is
    still [SynchronizedState] and the revision is one more than before. *)
Theorem serverAck_synchronized_throws (c : Client.t T) :
  state c = SynchronizedState ->
  serverAck c
    = (mk SynchronizedState (revision c + 1) (calls c),
       Throw (Error "There is no pending operation.")).
Proof.
  destruct c as [st rev cs]; simpl. intros ->.
  unfold serverAck, bind, incr_revision, modify, gets; simpl.
  reflexivity.
Qed.

End ClientFacts.

(** ** UndoManager *)

Section UndoManagerFacts.
Context {T : Type} `{!TextOperation.API T}.

Import UndoManager.

(** *** transformStack *)

Lemma transformStack_loop_walk (stack : list T) (n : nat) (acc : list T) (op : T) :
  (n <= length stack)%nat ->
  transformStack_loop stack n acc op
    = match spec_walk (reverse (take n stack)) op with
      | Return kept => Return (acc ++ kept)
      | Throw e => Throw e
      end.
Proof.
  revert acc op. induction n as [|i IH]; intros acc op Hn.
  - rewrite take_0, reverse_nil. simpl. by rewrite app_nil_r.
  - destruct (lookup_lt_is_Some_2 stack i) as [entry Hentry]; [lia|].
    rewrite (take_S_r _ _ _ Hentry), reverse_snoc. simpl.
    rewrite Hentry.
    destruct (TextOperation.transform entry op) as [[entry' op']|e]; [|done].
    simpl. rewrite IH by lia.
    destruct (spec_walk (reverse (take i stack)) op') as [kept|e]; [|done].
    destruct (TextOperation.isNoop entry'); simpl; [done|].
    by rewrite <- app_assoc.
Qed.

Lemma transformStack_walk (stack : list T) (op : T) :
  transformStack stack op = spec_transformStack stack op.
Proof.
  unfold transformStack, spec_transformStack.
  rewrite transformStack_loop_walk by lia.
  rewrite firstn_all.
  by destruct (spec_walk (reverse stack) op).
Qed.

Lemma transform_unfold (m : UndoManager.t T) (op : T) :
  transform op m
    = match transformStack (undoStack m) op with
      | Throw e => (m, Throw e)
      | Return undo' =>
          match transformStack (redoStack m) op with
          | Throw e => (set_undoStack undo' m, Throw e)
          | Return redo' =>
              (mk (state m) (dontCompose m) undo' redo' (maxItems m), Return tt)
          end
      end.
Proof.
  unfold transform, bind, gets, lift, modify.
  destruct (transformStack (undoStack m) op) as [undo'|e]; [|done].
  simpl. by destruct (transformStack (redoStack m) op).
Qed.

(** C6: [transformStack] walks the stack from its top (the last element)
    to its bottom, transforms each entry against the running operation
    with the entry as first argument, goes on with the second component of
    the pair, keeps the first component unless it is a noop, and returns
    the kept entries in the stack's original order; [UndoManager.transform]
    rewrites the undo stack and then the redo stack this way. *)
Theorem transformStack_spec (m : UndoManager.t T) (stack : list T) (op : T) :
  transformStack stack op = spec_transformStack stack op
  /\ transform op m
     = match spec_transformStack (undoStack m) op with
       | Throw e => (m, Throw e)
       | Return undo' =>
           match spec_transformStack (redoStack m) op with
           | Throw e => (set_undoStack undo' m, Throw e)
           | Return redo' =>
               (mk (state m) (dontCompose m) undo' redo' (maxItems m), Return tt)
           end
       end.
Proof.
  split; [apply transformStack_walk|].
  rewrite transform_unfold, !transformStack_walk. reflexivity.
Qed.

(** *** add *)

Lemma add_undoing (m : UndoManager.t T) (op : T) (c : bool) :
  state m = UNDOING_STATE ->
  add op c m
    = (mk UNDOING_STATE true (undoStack m) (redoStack m ++ [op]) (maxItems m),
       Return tt).
Proof. destruct m; simpl. intros ->. reflexivity. Qed.

Lemma add_redoing (m : UndoManager.t T) (op : T) (c : bool) :
  state m = REDOING_STATE ->
  add op c m
    = (mk REDOING_STATE true (undoStack m ++ [op]) (redoStack m) (maxItems m),
       Return tt).
Proof. destruct m; simpl. intros ->. reflexivity. Qed.

(** Normal mode, composing: the top [top] is popped before
    [operation.compose(top)] runs, so a throwing [compose] leaves the stack
    without its top. *)
Lemma add_normal_compose (m : UndoManager.t T) (op : T) (below : list T) (top : T) :
  state m = NORMAL_STATE ->
  dontCompose m = false ->
  undoStack m = below ++ [top] ->
  add op true m
    = match TextOperation.compose op top with
      | Return composed =>
          (mk NORMAL_STATE false (below ++ [composed]) [] (maxItems m), Return tt)
      | Throw e =>
          (mk NORMAL_STATE false below (redoStack m) (maxItems m), Throw e)
      end.
Proof.
  destruct m as [st dc undo redo mx]; simpl. intros -> -> ->.
  unfold add, bind, gets, modify; simpl.
  assert ((0 <? Z.of_nat (length (below ++ [top]))) = true) as ->
    by (apply Z.ltb_lt; rewrite length_app; simpl; lia).
  unfold undoStack_pop, popped, bind, gets, modify, ret, lift; simpl.
  rewrite removelast_last, last_snoc.
  by destruct (TextOperation.compose op top).
Qed.

(** Normal mode, not composing: push, then drop the oldest entry if the
    stack has grown beyond [maxItems]. *)
Lemma add_normal_push (m : UndoManager.t T) (op : T) (c : bool) :
  state m = NORMAL_STATE ->
  dontCompose m = true \/ c = false \/ undoStack m = [] ->
  add op c m
    = (mk NORMAL_STATE false
          (if maxItems m <? Z.of_nat (length (undoStack m ++ [op]))
           then drop 1 (undoStack m ++ [op]) else undoStack m ++ [op])
          [] (maxItems m),
       Return tt).
Proof.
  destruct m as [st dc undo redo mx]; simpl. intros -> Hpush.
  unfold add, bind, gets, modify; simpl.
  assert ((negb dc && c && (0 <? Z.of_nat (length undo))) = false) as ->.
  { destruct Hpush as [-> | [-> | ->]]; simpl; [done| |].
    - by rewrite andb_false_r.
    - by rewrite andb_false_r. }
  unfold undoStack_push, undoStack_shift, bind, gets, modify, ret; simpl.
  by destruct (mx <? Z.of_nat (length (undo ++ [op]))).
Qed.

(** C5: [add(op, compose)] pushes [op] on the redo stack in Undoing mode
    and on the undo stack in Redoing mode, setting [dontCompose] in both;
    in Normal mode it replaces the top [t] by [op.compose(t)] when
    [dontCompose] is false, [compose] is true and the undo stack is not
    empty, and pushes [op] otherwise; in Normal mode the redo stack is
    emptied and [dontCompose] reset, so after a Normal-mode [add] that a set
    [dontCompose] kept from composing, the next one composes again. *)
Theorem add_spec (m : UndoManager.t T) (op : T) (c : bool) :
  (state m = UNDOING_STATE ->
   add op c m
     = (mk UNDOING_STATE true (undoStack m) (redoStack m ++ [op]) (maxItems m),
        Return tt))
  /\
  (state m = REDOING_STATE ->
   add op c m
     = (mk REDOING_STATE true (undoStack m ++ [op]) (redoStack m) (maxItems m),
        Return tt))
  /\
  (state m = NORMAL_STATE -> dontCompose m = false -> c = true ->
   forall below t composed,
     undoStack m = below ++ [t] ->
     TextOperation.compose op t = Return composed ->
     add op c m
       = (mk NORMAL_STATE false (below ++ [composed]) [] (maxItems m), Return tt))
  /\
  (state m = NORMAL_STATE ->
   dontCompose m = true \/ c = false \/ undoStack m = [] ->
   add op c m
     = (mk NORMAL_STATE false
           (if maxItems m <? Z.of_nat (length (undoStack m ++ [op]))
            then drop 1 (undoStack m ++ [op]) else undoStack m ++ [op])
           [] (maxItems m),
        Return tt))
  /\
  (state m = NORMAL_STATE -> dontCompose m = true ->
   let m1 := fst (add op true m) in
   state m1 = NORMAL_STATE /\ dontCompose m1 = false /\ redoStack m1 = []
   /\ undoStack m1
      = (if maxItems m <? Z.of_nat (length (undoStack m ++ [op]))
         then drop 1 (undoStack m ++ [op]) else undoStack m ++ [op])
   /\ forall op2 below t composed,
        undoStack m1 = below ++ [t] ->
        TextOperation.compose op2 t = Return composed ->
        add op2 true m1
          = (mk NORMAL_STATE false (below ++ [composed]) [] (maxItems m), Return tt)).
Proof.
  repeat split.
  - apply add_undoing.
  - apply add_redoing.
  - intros Hst Hdc -> below t composed Hundo Hcomp.
    rewrite (add_normal_compose m op below t Hst Hdc Hundo), Hcomp. reflexivity.
  - apply add_normal_push.
  - rewrite add_normal_push by auto. reflexivity.
  - rewrite add_normal_push by auto. reflexivity.
  - rewrite add_normal_push by auto. reflexivity.
  - rewrite add_normal_push by auto. reflexivity.
  - intros op2 below t composed Hundo Hcomp.
    rewrite add_normal_push in Hundo by auto.
    rewrite (add_normal_push m op true) by auto.
    simpl in Hundo |- *.
    match goal with |- add op2 true ?m1 = _ =>
      rewrite (add_normal_compose m1 op2 below t);
        [rewrite Hcomp; reflexivity | reflexivity | reflexivity | exact Hundo]
    end.
Qed.

(** *** The bound on the stacks *)

Local Ltac split_bound := repeat split; first [lia | done | intros; congruence].

Lemma spec_walk_length (l : list T) (op : T) (kept : list T) :
  spec_walk l op = Return kept -> (length kept <= length l)%nat.
Proof.
  revert op kept. induction l as [|entry below IH]; intros op kept; simpl.
  - intros [= <-]. done.
  - destruct (TextOperation.transform entry op) as [[entry' op']|e]; [|done].
    destruct (spec_walk below op') as [kept'|e] eqn:Hbelow; [|done].
    apply IH in Hbelow.
    intros [= <-]. destruct (TextOperation.isNoop entry'); simpl; lia.
Qed.

Lemma transformStack_length (stack : list T) (op : T) (stack' : list T) :
  transformStack stack op = Return stack' -> (length stack' <= length stack)%nat.
Proof.
  rewrite transformStack_walk. unfold spec_transformStack.
  destruct (spec_walk (reverse stack) op) as [kept|e] eqn:Hwalk; [|done].
  intros [= <-]. apply spec_walk_length in Hwalk.
  rewrite length_reverse in *. exact Hwalk.
Qed.

Lemma transform_keeps_bound (m : UndoManager.t T) (op : T) :
  within_bound m ->
  within_bound (fst (transform op m))
  /\ maxItems (fst (transform op m)) = maxItems m
  /\ state (fst (transform op m)) = state m.
Proof.
  unfold within_bound. intros Hb. rewrite transform_unfold.
  destruct (transformStack (undoStack m) op) as [undo'|e] eqn:Hundo; [|done].
  apply transformStack_length in Hundo.
  destruct (transformStack (redoStack m) op) as [redo'|e] eqn:Hredo; simpl.
  - apply transformStack_length in Hredo. repeat split; lia.
  - repeat split; lia.
Qed.

Lemma add_normal_keeps_bound (m : UndoManager.t T) (op : T) (c : bool) :
  state m = NORMAL_STATE -> within_bound m -> keeps_bound m (add op c m).
Proof.
  intros Hst Hb. unfold keeps_bound, within_bound in *.
  destruct (dontCompose m) eqn:Hdc;
    [|destruct c; [destruct (undoStack m) as [|x l] eqn:Hundo using rev_ind|]].
  - rewrite add_normal_push by auto. simpl.
    rewrite length_app in *; simpl in *.
    destruct (Z.ltb_spec (maxItems m) (Z.of_nat (length (undoStack m) + 1)));
      rewrite ?length_drop, ?length_app; simpl; split_bound.
  - rewrite add_normal_push by auto. rewrite Hundo. simpl.
    destruct (Z.ltb_spec (maxItems m) (Z.of_nat 1)); simpl in *; split_bound.
  - rewrite (add_normal_compose m op l x) by auto.
    rewrite length_app in Hb; simpl in Hb.
    destruct (TextOperation.compose op x); simpl;
      rewrite ?length_app; simpl; split_bound.
  - rewrite add_normal_push by auto. simpl.
    rewrite length_app in *; simpl in *.
    destruct (Z.ltb_spec (maxItems m) (Z.of_nat (length (undoStack m) + 1)));
      rewrite ?length_drop, ?length_app; simpl; split_bound.
Qed.

Lemma performUndo_empty (m : UndoManager.t T) (fn : T -> M (UndoManager.t T) unit) :
  undoStack m = [] ->
  performUndo fn m = (set_state UNDOING_STATE m, Throw (Error "undo not possible")).
Proof. destruct m; simpl. intros ->. reflexivity. Qed.

Lemma performRedo_empty (m : UndoManager.t T) (fn : T -> M (UndoManager.t T) unit) :
  redoStack m = [] ->
  performRedo fn m = (set_state REDOING_STATE m, Throw (Error "redo not possible")).
Proof. destruct m; simpl. intros ->. reflexivity. Qed.

(** An undo whose callback calls [add] once moves one entry: the top of
    the undo stack goes to the callback, and what the callback adds lands on
    the redo stack. *)
Lemma performUndo_adds_once (m : UndoManager.t T) (fn : T -> list (T * bool))
  (below : list T) (top o : T) (c : bool) :
  undoStack m = below ++ [top] ->
  fn top = [(o, c)] ->
  performUndo (fun top => adds (fn top)) m
    = (mk NORMAL_STATE true below (redoStack m ++ [o]) (maxItems m), Return tt).
Proof.
  destruct m as [st dc undo redo mx]; simpl. intros -> Hfn.
  unfold performUndo, bind, gets, modify; simpl.
  assert ((Z.of_nat (length (below ++ [top])) =? 0) = false) as ->
    by (apply Z.eqb_neq; rewrite length_app; simpl; lia).
  unfold undoStack_pop, popped, bind, gets, modify, ret; simpl.
  rewrite removelast_last, last_snoc, Hfn. reflexivity.
Qed.

Lemma performRedo_adds_once (m : UndoManager.t T) (fn : T -> list (T * bool))
  (below : list T) (top o : T) (c : bool) :
  redoStack m = below ++ [top] ->
  fn top = [(o, c)] ->
  performRedo (fun top => adds (fn top)) m
    = (mk NORMAL_STATE true (undoStack m ++ [o]) below (maxItems m), Return tt).
Proof.
  destruct m as [st dc undo redo mx]; simpl. intros -> Hfn.
  unfold performRedo, bind, gets, modify; simpl.
  assert ((Z.of_nat (length (below ++ [top])) =? 0) = false) as ->
    by (apply Z.eqb_neq; rewrite length_app; simpl; lia).
  unfold redoStack_pop, popped, bind, gets, modify, ret; simpl.
  rewrite removelast_last, last_snoc, Hfn. reflexivity.
Qed.

(** An undo or redo whose callback does not call [add] drops the entry it
    popped. *)
Lemma performUndo_adds_none (m : UndoManager.t T) (fn : T -> list (T * bool))
  (below : list T) (top : T) :
  undoStack m = below ++ [top] ->
  fn top = [] ->
  performUndo (fun top => adds (fn top)) m
    = (mk NORMAL_STATE (dontCompose m) below (redoStack m) (maxItems m), Return tt).
Proof.
  destruct m as [st dc undo redo mx]; simpl. intros -> Hfn.
  unfold performUndo, bind, gets, modify; simpl.
  assert ((Z.of_nat (length (below ++ [top])) =? 0) = false) as ->
    by (apply Z.eqb_neq; rewrite length_app; simpl; lia).
  unfold undoStack_pop, popped, bind, gets, modify, ret; simpl.
  rewrite removelast_last, last_snoc, Hfn. reflexivity.
Qed.

Lemma performRedo_adds_none (m : UndoManager.t T) (fn : T -> list (T * bool))
  (below : list T) (top : T) :
  redoStack m = below ++ [top] ->
  fn top = [] ->
  performRedo (fun top => adds (fn top)) m
    = (mk NORMAL_STATE (dontCompose m) (undoStack m) below (maxItems m), Return tt).
Proof.
  destruct m as [st dc undo redo mx]; simpl. intros -> Hfn.
  unfold performRedo, bind, gets, modify; simpl.
  assert ((Z.of_nat (length (below ++ [top])) =? 0) = false) as ->
    by (apply Z.eqb_neq; rewrite length_app; simpl; lia).
  unfold redoStack_pop, popped, bind, gets, modify, ret; simpl.
  rewrite removelast_last, last_snoc, Hfn. reflexivity.
Qed.

Lemma at_most_once_cases (fn : T -> list (T * bool)) (top : T) :
  (length (fn top) <= 1)%nat -> fn top = [] \/ exists o c, fn top = [(o, c)].
Proof.
  destruct (fn top) as [|[o c] [|? ?]]; simpl; [by left| |lia].
  intros _. right. by exists o, c.
Qed.

Lemma run_call_keeps_bound (m : UndoManager.t T) (c : UndoManager.call T) :
  state m = NORMAL_STATE -> within_bound m -> adds_at_most_once c ->
  keeps_bound m (run_call c m).
Proof.
  intros Hst Hb Honce. destruct c as [op c|op|fn|fn]; simpl in *.
  - by apply add_normal_keeps_bound.
  - destruct (transform_keeps_bound m op Hb) as (Hb' & Hmx & Hst').
    repeat split; [done|done|]. intros _. congruence.
  - unfold keeps_bound, within_bound in *.
    destruct (undoStack m) as [|top below _] eqn:Hundo using rev_ind.
    + rewrite performUndo_empty by done. simpl. rewrite Hundo.
      simpl in *; split_bound.
    + destruct (at_most_once_cases fn top (Honce top)) as [Hfn|(o & c & Hfn)].
      * rewrite (performUndo_adds_none m fn below top Hundo Hfn). simpl.
        rewrite !length_app in *; simpl in *. split_bound.
      * rewrite (performUndo_adds_once m fn below top o c Hundo Hfn). simpl.
        rewrite !length_app in *; simpl in *. split_bound.
  - unfold keeps_bound, within_bound in *.
    destruct (redoStack m) as [|top below _] eqn:Hredo using rev_ind.
    + rewrite performRedo_empty by done. simpl. rewrite Hredo.
      simpl in *; split_bound.
    + destruct (at_most_once_cases fn top (Honce top)) as [Hfn|(o & c & Hfn)].
      * rewrite (performRedo_adds_none m fn below top Hredo Hfn). simpl.
        rewrite !length_app in *; simpl in *. split_bound.
      * rewrite (performRedo_adds_once m fn below top o c Hredo Hfn). simpl.
        rewrite !length_app in *; simpl in *. split_bound.
Qed.

Lemma run_keeps_bound (calls : list (UndoManager.call T)) (m : UndoManager.t T) :
  state m = NORMAL_STATE -> within_bound m -> Forall adds_at_most_once calls ->
  keeps_bound m (run calls m).
Proof.
  revert m. induction calls as [|c rest IH]; intros m Hst Hb Honce.
  - simpl. repeat split; done.
  - inversion_clear Honce as [|? ? Hc Hrest].
    destruct (run_call_keeps_bound m c Hst Hb Hc) as (Hb1 & Hmx1 & Hst1).
    simpl. unfold bind.
    destruct (run_call c m) as [m1 [[]|e]]; simpl in *.
    + destruct (IH m1 (Hst1 eq_refl) Hb1 Hrest) as (Hb2 & Hmx2 & Hst2).
      repeat split; [done|congruence|done].
    + repeat split; done.
Qed.

(** C4, amended: from a manager in Normal mode whose two stacks together
    hold at most [maxItems] entries, a sequence of [add], [transform],
    [performUndo] and [performRedo] calls whose undo and redo callbacks
    each call [add] at most once, run to its end or to the first call that
    throws, leaves each stack with at most [maxItems] entries; a
    Normal-mode [add] that pushes onto an undo stack which would then hold
    more than [maxItems] entries drops the oldest one; and [add] in
    Undoing or Redoing mode pushes (on the redo stack, on the undo stack)
    without trimming, whatever the stack holds. *)
Theorem stacks_within_maxItems (m : UndoManager.t T) (calls : list (UndoManager.call T)) :
  state m = NORMAL_STATE ->
  within_bound m ->
  Forall adds_at_most_once calls ->
  each_within_bound (fst (run calls m))
  /\ maxItems (fst (run calls m)) = maxItems m
  /\ (forall op c,
        dontCompose m = true \/ c = false \/ undoStack m = [] ->
        maxItems m < Z.of_nat (length (undoStack m ++ [op])) ->
        undoStack (fst (add op c m)) = drop 1 (undoStack m ++ [op]))
  /\ (forall (m2 : UndoManager.t T) op c,
        state m2 = UNDOING_STATE ->
        add op c m2
          = (mk UNDOING_STATE true (undoStack m2) (redoStack m2 ++ [op]) (maxItems m2),
             Return tt))
  /\ (forall (m2 : UndoManager.t T) op c,
        state m2 = REDOING_STATE ->
        add op c m2
          = (mk REDOING_STATE true (undoStack m2 ++ [op]) (redoStack m2) (maxItems m2),
             Return tt)).
Proof.
  intros Hst Hb Honce.
  destruct (run_keeps_bound calls m Hst Hb Honce) as (Hb' & Hmx & _).
  unfold each_within_bound, within_bound in *.
  split; [lia|]. split; [exact Hmx|]. split; [|split].
  - intros op c Hpush Hfull. rewrite add_normal_push by done. simpl.
    apply Z.ltb_lt in Hfull. by rewrite Hfull.
  - intros m2 op c. apply add_undoing.
  - intros m2 op c. apply add_redoing.
Qed.

End UndoManagerFacts.

(** ** Range and Selection *)

Section RangeFacts.
Context {T : Type} `{!TextOperation.API T}.

Lemma transformIndex_loop_walk (ops : list Op) (index newIndex : Z) :
  Range.transformIndex_loop ops index newIndex
    = Range.spec_walk (map Range.component ops) index newIndex.
Proof.
  revert index newIndex.
  induction ops as [|op rest IH]; intros index newIndex; [reflexivity|].
  cbn [Range.transformIndex_loop Range.spec_walk map].
  destruct op as [n|s]; unfold Range.component, isRetain.
  - destruct (0 <? n).
    + destruct (index - n <? 0); [reflexivity|apply IH].
    + replace (index - - n) with (index + n) by lia.
      destruct (index + n <? 0); [reflexivity|apply IH].
  - destruct (index <? 0); [reflexivity|apply IH].
Qed.

Lemma transformIndex_position (ops : list Op) (index : Z) :
  Range.transformIndex ops index = Range.spec_position (map Range.component ops) index.
Proof. apply transformIndex_loop_walk. Qed.

(** C7: [Range.transform(op)] maps anchor and head through the components
    of [op] by the position rule (a retain of [n] takes [n] from the
    remaining index, an insert adds its length to the new position, a delete
    of [n] takes [min(remaining index, n)] from the new position and [n]
    from the remaining index, and the walk ends once the remaining index is
    negative); a range with [anchor = head] is mapped to a range with
    [anchor = head]. *)
Theorem Range_transform_spec (r : Range.t) (other : T) :
  let cs := map Range.component (TextOperation.ops other) in
  Range.transform r other
    = Range.mk (Range.spec_position cs (Range.anchor r))
               (Range.spec_position cs (Range.head r))
  /\ (Range.isEmpty r = true -> Range.isEmpty (Range.transform r other) = true).
Proof.
  intros cs. unfold Range.transform, Range.isEmpty.
  rewrite !transformIndex_position. fold cs.
  destruct (Z.eqb_spec (Range.anchor r) (Range.head r)) as [Heq|Hne]; simpl.
  - rewrite Heq. split; [reflexivity|]. intros _. apply Z.eqb_refl.
  - split; [reflexivity|discriminate].
Qed.

End RangeFacts.

Section SelectionFacts.

Import Selection.

Lemma sort_insert_perm {A} (comparefn : A -> A -> Z) (x : A) (sorted : list A) :
  sort_insert comparefn x sorted ≡ₚ x :: sorted.
Proof.
  induction sorted as [|y rest IH]; simpl; [done|].
  destruct (comparefn x y <? 0); [done|].
  rewrite IH. apply Permutation_swap.
Qed.

(** Sorting keeps the elements of the array. *)
Lemma Array_sort_perm {A} (comparefn : A -> A -> Z) (l : list A) :
  Array_sort comparefn l ≡ₚ l.
Proof.
  induction l as [|x l IH]; simpl; [done|].
  rewrite sort_insert_perm. by rewrite IH.
Qed.

Lemma compareRanges_below (a b : Range.t) :
  (compareRanges a b <? 0) = false -> range_le b a.
Proof.
  unfold compareRanges, range_le.
  destruct (Z.ltb_spec (Range.anchor a) (Range.anchor b)); [done|].
  destruct (Z.eqb_spec (Range.anchor a) (Range.anchor b));
    destruct (Z.ltb_spec (Range.head a) (Range.head b)); simpl; try done;
    intros _; lia.
Qed.

Lemma compareRanges_above (a b : Range.t) :
  (compareRanges a b <? 0) = true -> range_le a b.
Proof.
  unfold compareRanges, range_le.
  destruct (Z.ltb_spec (Range.anchor a) (Range.anchor b)); [intros _; lia|].
  destruct (Z.eqb_spec (Range.anchor a) (Range.anchor b));
    destruct (Z.ltb_spec (Range.head a) (Range.head b)); simpl; try done;
    intros _; lia.
Qed.

Lemma sort_insert_HdRel (y x : Range.t) (l : list Range.t) :
  range_le y x -> HdRel range_le y l ->
  HdRel range_le y (sort_insert compareRanges x l).
Proof.
  intros Hyx Hl. destruct l as [|z l]; simpl; [by constructor|].
  destruct (compareRanges x z <? 0); constructor; [done|].
  by inversion Hl.
Qed.

Lemma sort_insert_sorted (x : Range.t) (l : list Range.t) :
  Sorted range_le l -> Sorted range_le (sort_insert compareRanges x l).
Proof.
  induction l as [|y rest IH]; simpl; intros Hsorted.
  - by repeat constructor.
  - inversion_clear Hsorted as [|? ? Hrest Hhd].
    destruct (compareRanges x y <? 0) eqn:Hcmp.
    + constructor; [by constructor|].
      constructor. by apply compareRanges_above.
    + constructor; [by apply IH|].
      apply sort_insert_HdRel; [by apply compareRanges_below|done].
Qed.

(** The sorted array is in (anchor, head) order. *)
Lemma Array_sort_sorted (l : list Range.t) :
  Sorted range_le (Array_sort compareRanges l).
Proof.
  induction l as [|x l IH]; simpl; [constructor|].
  by apply sort_insert_sorted.
Qed.

Lemma equals_length_mismatch (this other : Selection.t) (h : store) :
  length (array h (ranges this)) ≠ length (array h (ranges other)) ->
  equals this other h = (h, Return false).
Proof.
  intros Hlen. unfold equals, bind, get.
  apply Nat.eqb_neq in Hlen. by rewrite Hlen.
Qed.

(** When the lengths agree, the call stores the sorted arrays back: first
    [this.ranges], then [other.ranges]. *)
Lemma equals_sorts_in_place (this other : Selection.t) (h : store) :
  length (array h (ranges this)) = length (array h (ranges other)) ->
  let h1 := <[ranges this := Array_sort compareRanges (array h (ranges this))]> h in
  let h2 := <[ranges other := Array_sort compareRanges (array h1 (ranges other))]> h1 in
  equals this other h
    = (h2, Return (equals_loop (array h2 (ranges this)) (array h2 (ranges other)))).
Proof.
  intros Hlen. unfold equals, bind, get.
  apply Nat.eqb_eq in Hlen. by rewrite Hlen.
Qed.

(** C8: [equals] on two selections holding the cursors 5 and 1 in different
    orders answers [true], and afterwards the array of the first selection,
    which held 5 then 1, holds 1 then 5: the call has reordered it. *)
Theorem equals_reorders_ranges :
  let h := Scenario.cursors in
  let r := equals (mk Scenario.ranges1) (mk Scenario.ranges2) h in
  snd r = Return true
  /\ array h Scenario.ranges1 = [Range.mk 5 5; Range.mk 1 1]
  /\ array (fst r) Scenario.ranges1 = [Range.mk 1 1; Range.mk 5 5].
Proof. vm_compute. repeat split. Qed.

End SelectionFacts.

(** ** The theorems on the concrete scenarios *)

Section ScenarioFacts.

Import Scenario.

(** Scenarios S1 and S2 of the specification, on [TextOp]. *)
Example S1_compose :
  TextOp.compose [OpStr "Hello, "; OpNum 5] [OpNum 12; OpStr "!"]
    = Return [OpStr "Hello, "; OpNum 5; OpStr "!"]
  /\ TextOp.apply [OpStr "Hello, "; OpNum 5; OpStr "!"] "world" = Return "Hello, world!".
Proof. split; vm_compute; reflexivity. Qed.

Example S3_apply :
  TextOp.apply there "hello world" = Return "hello there".
Proof. vm_compute. reflexivity. Qed.

Example S2_transform_tie_break :
  TextOp.transform [OpStr "X"; OpNum 2] [OpStr "Y"; OpNum 2]
    = Return ([OpStr "X"; OpNum 3], [OpNum 1; OpStr "Y"; OpNum 2])
  /\ TextOp.apply [OpNum 1; OpStr "Y"; OpNum 2] "Xab" = Return "XYab"
  /\ TextOp.apply [OpStr "X"; OpNum 3] "Yab" = Return "XYab".
Proof. repeat split; vm_compute; reflexivity. Qed.

(** S4, third step: the server operation reaches [applyOperation]
    transformed twice, the revision becomes 8, and the call throws. *)
Lemma applyServer_S4 :
  Client.applyServer opC buffering
    = (Client.mk (Client.AwaitingConfirmWithBuffer opA opB) 8
         [Client.sendOperation 7 opA; Client.applyOperation [OpNum 4; OpStr "Y"]],
       Throw (ReferenceError "AwaitingWithBuffer is not defined")).
Proof.
  apply (applyServer_AwaitingConfirmWithBuffer buffering opA opB opC
           [OpStr "X"; OpNum 3] [OpNum 3; OpStr "Y"]
           [OpNum 3; OpStr "Z"; OpNum 1] [OpNum 4; OpStr "Y"]);
    vm_compute; reflexivity.
Defined.

(** A freshly created client is in [SynchronizedState]. *)
Lemma serverReconnect_fresh :
  Client.serverReconnect (Client.create (T:=TextOp.t) 0)
    = (Client.create 0, Throw (TypeError "this.state.resend is not a function")).
Proof.
  apply (proj1 (serverReconnect_spec (Client.create (T:=TextOp.t) 0))).
  reflexivity.
Defined.

Lemma serverAck_fresh :
  Client.serverAck (Client.create (T:=TextOp.t) 7)
    = (Client.mk Client.SynchronizedState 8 [],
       Throw (Error "There is no pending operation.")).
Proof.
  apply (serverAck_synchronized_throws (Client.create (T:=TextOp.t) 7)).
  reflexivity.
Defined.

(** S5: Y's insert, made at revision 0, is transformed against X's and
    lands before it; a revision beyond the history is refused. *)
Lemma receiveOperation_S5 :
  Server.receiveOperation 0 yo server1
    = (Server.mk "yohi" [hi; [OpStr "yo"; OpNum 2]], Return [OpStr "yo"; OpNum 2])
  /\ Server.receiveOperation 2 yo server1
     = (server1, Throw (Error "operation revision not in history")).
Proof.
  split.
  - apply (proj2 (receiveOperation_spec server1 0 yo));
      [simpl; lia | | vm_compute; reflexivity].
    apply transformLoop_sound. vm_compute. reflexivity.
  - apply (proj1 (receiveOperation_spec server1 2 yo)). right. simpl. lia.
Defined.

(** An operation for a five-character document, sent against "hi": [apply]
    throws and the server is as before. *)
Lemma receiveOperation_apply_throws :
  fst (Server.receiveOperation 1 retain5 server1) = server1.
Proof.
  apply (receiveOperation_throw_unchanged server1 _ 1 retain5
           (Error "LengthMismatch")).
  vm_compute. reflexivity.
Defined.

(** With [maxItems = 1], one edit and an undo whose callback adds twice
    leave two entries on the redo stack. *)
Lemma adds_twice_exceeds :
  ~ (forall calls : list (UndoManager.call TextOp.t),
       UndoManager.each_within_bound
         (fst (UndoManager.run calls (UndoManager.create 1)))).
Proof.
  intros Hall. specialize (Hall adds_twice).
  assert (fst (UndoManager.run adds_twice (UndoManager.create 1))
          = UndoManager.mk UndoManager.NORMAL_STATE true [] [inv1; inv1] 1) as Hrun
    by (vm_compute; reflexivity).
  rewrite Hrun in Hall. destruct Hall as [_ Hredo]. simpl in Hredo. lia.
Qed.

(** An undo attempted on an empty stack throws after the mode has been set
    to Undoing; the mode stays, and the edits added afterwards pile up on
    the redo stack. *)
Example failed_undo_leaves_undoing :
  let m1 := fst (UndoManager.performUndo (fun _ => ret tt) (UndoManager.create (T:=TextOp.t) 1)) in
  let m3 := fst (UndoManager.add inv2 false (fst (UndoManager.add inv1 false m1))) in
  UndoManager.state m1 = UndoManager.UNDOING_STATE
  /\ UndoManager.undoStack m3 = []
  /\ UndoManager.redoStack m3 = [inv1; inv2].
Proof. vm_compute. repeat split. Qed.

Lemma polite_session_within_bound :
  UndoManager.each_within_bound
    (fst (UndoManager.run polite (UndoManager.create 2))).
Proof.
  apply (stacks_within_maxItems (UndoManager.create 2) polite).
  - reflexivity.
  - unfold UndoManager.within_bound. simpl. lia.
  - repeat constructor.
Defined.

(** The second edit's inverse composes with the first's. *)
Lemma add_composes_inverses :
  UndoManager.add inv2 true one_edit
    = (UndoManager.mk UndoManager.NORMAL_STATE false [[OpNum 2; OpNum (-2)]] [] 2,
       Return tt).
Proof.
  apply (proj1 (proj2 (proj2 (add_spec one_edit inv2 true)))
           eq_refl eq_refl eq_refl [] inv1 [OpNum 2; OpNum (-2)] eq_refl).
  vm_compute. reflexivity.
Defined.

(** An inverse that a remote operation has made pointless is dropped: the
    remote operation deletes the "x" that [inv1] would delete. *)
Example transformStack_drops_noop :
  UndoManager.transformStack [inv1] [OpNum 2; OpNum (-1)] = Return []
  /\ UndoManager.transformStack [inv1; inv2] [OpStr "!"; OpNum 4]
     = Return [[OpNum 3; OpNum (-1)]; [OpNum 4; OpNum (-1)]].
Proof. split; vm_compute; reflexivity. Qed.

(** A cursor inside the deleted "world" is moved to where the deleted text
    began. *)
Lemma cursor_in_deleted_range :
  Range.transform (Range.mk 8 8) there = Range.mk 6 6
  /\ Range.isEmpty (Range.transform (Range.mk 8 8) there) = true.
Proof.
  split.
  - exact (proj1 (Range_transform_spec (Range.mk 8 8) there)).
  - apply (proj2 (Range_transform_spec (Range.mk 8 8) there)). reflexivity.
Defined.

End ScenarioFacts.

(** * Further properties of the sources *)

(** ** Server: history *)

Section ServerHistory.
Context {T : Type} `{!TextOperation.API T}.

Lemma replay_snoc (history : list T) (o : T) (doc : string) :
  Server.replay (history ++ [o]) doc
    = match Server.replay history doc with
      | Return doc' => TextOperation.apply o doc'
      | Throw e => Throw e
      end.
Proof.
  revert doc. induction history as [|h rest IH]; intros doc; simpl.
  - by destruct (TextOperation.apply o doc).
  - destruct (TextOperation.apply h doc) as [doc'|e]; [apply IH|done].
Qed.

(** X1: if replaying the history on some starting document gives the
    server's document, then after a [receiveOperation] that returns this
    still holds, and the history has grown by exactly the returned
    operation, at its end. *)
Theorem receiveOperation_keeps_replay
  (s s' : Server.t T) (revision : Z) (op op' : T) (doc0 : string) :
  Server.replay (Server.operations s) doc0 = Return (Server.document s) ->
  Server.receiveOperation revision op s = (s', Return op') ->
  Server.operations s' = Server.operations s ++ [op']
  /\ Server.replay (Server.operations s') doc0 = Return (Server.document s').
Proof.
  intros Hreplay Hrecv.
  destruct (Z_lt_dec revision 0) as [Hneg|Hnonneg];
    [rewrite receiveOperation_out_of_range in Hrecv by auto; discriminate|].
  destruct (Z_lt_dec (Z.of_nat (length (Server.operations s))) revision) as [Hbig|Hsmall];
    [rewrite receiveOperation_out_of_range in Hrecv by auto; discriminate|].
  rewrite receiveOperation_in_range in Hrecv by lia.
  destruct (Server.transformLoop _ op) as [op1|e]; [|discriminate].
  destruct (TextOperation.apply op1 (Server.document s)) as [doc'|e] eqn:Happly;
    [|discriminate].
  injection Hrecv as <- <-. simpl. split; [reflexivity|].
  rewrite replay_snoc, Hreplay. exact Happly.
Qed.

(** X2: an operation sent at the server's current revision
    ([revision = operations.length], the upper end of the accepted range) is
    not transformed: it is applied and stored as it came, or, when [apply]
    throws, refused with the server unchanged. *)
Theorem receiveOperation_current_revision (s : Server.t T) (revision : Z) (op : T) :
  revision = Z.of_nat (length (Server.operations s)) ->
  Server.receiveOperation revision op s
    = match TextOperation.apply op (Server.document s) with
      | Return doc' => (Server.mk doc' (Server.operations s ++ [op]), Return op)
      | Throw e => (s, Throw e)
      end.
Proof.
  intros ->. rewrite receiveOperation_in_range by lia.
  rewrite Nat2Z.id, drop_all. reflexivity.
Qed.

End ServerHistory.

(** ** Client: transitions and event sequences *)

Section ClientRuns.
Context {T : Type} `{!TextOperation.API T}.

Import Client.

Local Ltac count_sent :=
  unfold sent; simpl; rewrite ?filter_app, ?length_app; simpl; split; lia.

(** What one event that returns does to the counters. *)
Lemma handle_counts (e : event T) (c c' : Client.t T) :
  handle e c = (c', Return tt) ->
  (sent c' + outstanding_count (state c)
   = sent c + (if is_ack e then 1 else 0) + outstanding_count (state c'))%nat
  /\ revision c' = revision c + (if from_server e then 1 else 0).
Proof.
  destruct c as [st rev cs].
  destruct e as [op|op|]; destruct st as [|o|o b]; simpl;
    unfold applyClient, applyServer, serverAck, bind, gets, incr_revision, modify,
      setState; simpl.
  - intros [= <-]. count_sent.
  - intros [= <-]. count_sent.
  - unfold AwaitingConfirmWithBuffer_applyClient, bind, lift.
    destruct (TextOperation.compose b op); [|discriminate].
    intros [= <-]. count_sent.
  - intros [= <-]. count_sent.
  - unfold AwaitingConfirm_applyServer, bind, lift.
    destruct (TextOperation.transform o op) as [[o' op']|]; [|discriminate].
    intros [= <-]. count_sent.
  - unfold AwaitingConfirmWithBuffer_applyServer, bind, lift.
    destruct (TextOperation.transform o op) as [[o' op']|]; [|discriminate].
    simpl. destruct (TextOperation.transform b op') as [[b' op'']|]; discriminate.
  - discriminate.
  - intros [= <-]. count_sent.
  - intros [= <-]. count_sent.
Qed.

Lemma run_counts (events : list (event T)) (c c' : Client.t T) :
  run events c = (c', Return tt) ->
  (sent c' + outstanding_count (state c)
   = sent c + length (filter is_ack events) + outstanding_count (state c'))%nat
  /\ revision c' = revision c + Z.of_nat (length (filter from_server events)).
Proof.
  revert c. induction events as [|e rest IH]; intros c; simpl.
  - intros [= <-]. split; lia.
  - unfold bind. destruct (handle e c) as [c1 [[]|err]] eqn:Hhandle; [|discriminate].
    intros Hrest. apply handle_counts in Hhandle as [Hsent1 Hrev1].
    apply IH in Hrest as [Hsent2 Hrev2].
    rewrite !filter_cons.
    destruct e; simpl in *; split; lia.
Qed.

(** X3: at most one operation is in flight.  After any sequence of edits,
    server operations and acknowledgements that a new client handles
    without an exception, the number of [sendOperation] calls is the number
    of acknowledgements plus one if the client is waiting for one (and plus
    nothing in the Synchronized state). *)
Theorem one_operation_in_flight (r : Z) (events : list (event T)) (c' : Client.t T) :
  run events (create r) = (c', Return tt) ->
  sent c' = (length (filter is_ack events) + outstanding_count (state c'))%nat
  /\ (sent c' <= length (filter is_ack events) + 1)%nat.
Proof.
  intros Hrun. destruct (run_counts _ _ _ Hrun) as [Hsent _].
  unfold create, sent in *; simpl in *.
  split; [lia|]. destruct (state c'); simpl in *; lia.
Qed.

(** X4: the revision counts what came from the server.  After a sequence of
    events handled without an exception, the revision has grown by the
    number of server operations and acknowledgements in it; the user's
    edits do not change it. *)
Theorem revision_counts_server_events
  (events : list (event T)) (c c' : Client.t T) :
  run events c = (c', Return tt) ->
  revision c' = revision c + Z.of_nat (length (filter from_server events)).
Proof. intros Hrun. exact (proj2 (run_counts _ _ _ Hrun)). Qed.

(** X5: an [applyServer] that throws has still incremented the revision,
    and has not changed the state. *)
Theorem applyServer_throw_advances_revision (c c' : Client.t T) (op : T) (e : exn) :
  applyServer op c = (c', Throw e) ->
  revision c' = revision c + 1 /\ state c' = state c.
Proof.
  destruct c as [st rev cs].
  unfold applyServer, bind, gets, incr_revision, modify, setState; simpl.
  destruct st as [|o|o b]; simpl.
  - discriminate.
  - unfold AwaitingConfirm_applyServer, bind, lift.
    destruct (TextOperation.transform o op) as [[o' op']|]; simpl;
      [discriminate|]. by intros [= <- _].
  - unfold AwaitingConfirmWithBuffer_applyServer, bind, lift.
    destruct (TextOperation.transform o op) as [[o' op']|]; simpl;
      [|by intros [= <- _]].
    destruct (TextOperation.transform b op') as [[b' op'']|]; simpl;
      by intros [= <- _].
Qed.

(** X6: [applyClient] never changes the revision and never calls
    [applyOperation]; when it throws (the buffer cannot be composed with the
    edit) the client is exactly as before. *)
Theorem applyClient_frame (c c' : Client.t T) (op : T) (r : completion unit) :
  applyClient op c = (c', r) ->
  revision c' = revision c
  /\ filter (fun x => negb (is_send x)) (calls c')
     = filter (fun x => negb (is_send x)) (calls c)
  /\ (forall e, r = Throw e -> c' = c).
Proof.
  destruct c as [st rev cs].
  unfold applyClient, bind, gets, modify, setState; simpl.
  destruct st as [|o|o b]; simpl.
  - intros [= <- <-]. simpl. rewrite filter_app. simpl.
    rewrite app_nil_r. repeat split. discriminate.
  - intros [= <- <-]. repeat split. discriminate.
  - unfold AwaitingConfirmWithBuffer_applyClient, bind, lift.
    destruct (TextOperation.compose b op); simpl; intros [= <- <-];
      repeat split; discriminate.
Qed.

(** X7: an acknowledgement in [AwaitingConfirm] leads to the Synchronized
    state; in [AwaitingConfirmWithBuffer(o, b)] it sends the buffer [b],
    with the revision already incremented, and leads to
    [AwaitingConfirm(b)]. *)
Theorem serverAck_pending (c : Client.t T) :
  (forall o, state c = AwaitingConfirm o ->
     serverAck c = (mk SynchronizedState (revision c + 1) (calls c), Return tt))
  /\
  (forall o b, state c = AwaitingConfirmWithBuffer o b ->
     serverAck c
       = (mk (AwaitingConfirm b) (revision c + 1)
             (calls c ++ [sendOperation (revision c + 1) b]),
          Return tt)).
Proof.
  destruct c as [st rev cs]; simpl.
  split; [intros o ->|intros o b ->]; reflexivity.
Qed.

(** X8: three edits and two acknowledgements.  From the Synchronized state
    the first edit is sent at once, the second and third are composed into
    one buffer, which the first acknowledgement sends with the next
    revision, and the second acknowledgement brings the client back to the
    Synchronized state: two operations were sent for three edits. *)
Theorem edits_are_buffered (c : Client.t T) (a b d bd : T) :
  state c = SynchronizedState ->
  TextOperation.compose b d = Return bd ->
  run [ApplyClient a; ApplyClient b; ApplyClient d; ServerAck; ServerAck] c
    = (mk SynchronizedState (revision c + 2)
          (calls c ++ [sendOperation (revision c) a; sendOperation (revision c + 1) bd]),
       Return tt).
Proof.
  destruct c as [st rev cs]; simpl. intros -> Hcomp.
  unfold run, handle, bind, applyClient, serverAck, bind, gets, incr_revision,
    modify, setState; simpl.
  unfold AwaitingConfirmWithBuffer_applyClient, bind, lift. rewrite Hcomp. simpl.
  rewrite <- app_assoc. simpl. unfold ret.
  replace (rev + 1 + 1) with (rev + 2) by lia. reflexivity.
Qed.

End ClientRuns.

(** ** UndoManager: undo, redo and errors *)

Section UndoManagerMore.
Context {T : Type} `{!TextOperation.API T}.

Import UndoManager.

(** X9: an undo followed by a redo puts the stacks back.  When the undo
    callback adds [f top] for the operation [top] it receives and the redo
    callback adds [g] of what it receives, with [g (f top) = top], the two
    calls leave both stacks as they were, in Normal mode, with
    [dontCompose] set. *)
Theorem undo_then_redo_restores (m : UndoManager.t T) (f g : T -> T)
  (cU cR : bool) (below : list T) (top : T) :
  undoStack m = below ++ [top] ->
  g (f top) = top ->
  bind (performUndo (fun t => add (f t) cU))
       (fun _ => performRedo (fun t => add (g t) cR)) m
    = (mk NORMAL_STATE true (undoStack m) (redoStack m) (maxItems m), Return tt).
Proof.
  destruct m as [st dc undo redo mx]; simpl. intros -> Hgf.
  unfold bind at 1.
  assert (performUndo (fun t => add (f t) cU) (mk st dc (below ++ [top]) redo mx)
          = (mk NORMAL_STATE true below (redo ++ [f top]) mx, Return tt)) as ->.
  { unfold performUndo, bind, gets, modify; simpl.
    assert ((Z.of_nat (length (below ++ [top])) =? 0) = false) as ->
      by (apply Z.eqb_neq; rewrite length_app; simpl; lia).
    unfold undoStack_pop, popped, bind, gets, modify, ret; simpl.
    by rewrite removelast_last, last_snoc. }
  unfold performRedo, bind, gets, modify; simpl.
  assert ((Z.of_nat (length (redo ++ [f top])) =? 0) = false) as ->
    by (apply Z.eqb_neq; rewrite length_app; simpl; lia).
  unfold redoStack_pop, popped, bind, gets, modify, ret; simpl.
  by rewrite removelast_last, last_snoc, Hgf.
Qed.

(** X10: [performUndo] on an empty undo stack throws "undo not possible"
    after it has set the mode to Undoing, and the mode is not set back: the
    stacks are unchanged, [isUndoing] answers true, and every later [add]
    pushes onto the redo stack and leaves the undo stack empty. *)
Theorem performUndo_empty_stays_undoing
  (m : UndoManager.t T) (fn : T -> M (UndoManager.t T) unit) :
  undoStack m = [] ->
  let m1 := fst (performUndo fn m) in
  snd (performUndo fn m) = Throw (Error "undo not possible")
  /\ isUndoing m1 = true
  /\ undoStack m1 = [] /\ redoStack m1 = redoStack m
  /\ forall op c,
       add op c m1
         = (mk UNDOING_STATE true [] (redoStack m ++ [op]) (maxItems m), Return tt).
Proof.
  intros Hempty. rewrite performUndo_empty by exact Hempty.
  destruct m as [st dc undo redo mx]; simpl in *. subst undo.
  repeat split.
Qed.

(** X11: when [operation.compose(top)] throws in a Normal-mode [add] that
    composes, the top entry has already been popped: the undo stack has lost
    it, and the redo stack and [dontCompose] are as before. *)
Theorem add_compose_throw_loses_top
  (m : UndoManager.t T) (op : T) (below : list T) (top : T) (e : exn) :
  state m = NORMAL_STATE ->
  dontCompose m = false ->
  undoStack m = below ++ [top] ->
  TextOperation.compose op top = Throw e ->
  add op true m = (mk NORMAL_STATE false below (redoStack m) (maxItems m), Throw e).
Proof.
  intros Hst Hdc Hundo Hthrow.
  rewrite (add_normal_compose m op below top Hst Hdc Hundo), Hthrow. reflexivity.
Qed.

(** X12: [UndoManager.transform] never adds an entry to either stack and
    changes nothing else, whether it returns or throws. *)
Theorem transform_never_grows (m m' : UndoManager.t T) (op : T) (r : completion unit) :
  transform op m = (m', r) ->
  (length (undoStack m') <= length (undoStack m))%nat
  /\ (length (redoStack m') <= length (redoStack m))%nat
  /\ state m' = state m /\ dontCompose m' = dontCompose m /\ maxItems m' = maxItems m.
Proof.
  rewrite transform_unfold.
  destruct (transformStack (undoStack m) op) as [undo'|e] eqn:Hundo.
  - apply transformStack_length in Hundo.
    destruct (transformStack (redoStack m) op) as [redo'|e] eqn:Hredo;
      intros [= <- <-]; simpl; [apply transformStack_length in Hredo|]; auto.
  - intros [= <- <-]. auto.
Qed.

Lemma add_push_enables_undo (m m' : UndoManager.t T) (op : T) (c : bool) :
  state m = NORMAL_STATE ->
  1 <= maxItems m ->
  dontCompose m = true \/ c = false \/ undoStack m = [] ->
  add op c m = (m', Return tt) ->
  canUndo m' = true /\ canRedo m' = false.
Proof.
  intros Hst Hmx Hpush. rewrite add_normal_push by done.
  intros [= <-]. unfold canUndo, canRedo; simpl. split; [|done].
  apply negb_true_iff, Z.eqb_neq.
  destruct (Z.ltb_spec (maxItems m) (Z.of_nat (length (undoStack m ++ [op]))));
    rewrite ?length_drop; rewrite length_app in *; simpl in *; lia.
Qed.

(** X13: with [maxItems >= 1], after a Normal-mode [add] that returns, an
    undo is possible and a redo is not. *)
Theorem add_enables_undo (m m' : UndoManager.t T) (op : T) (c : bool) :
  state m = NORMAL_STATE ->
  1 <= maxItems m ->
  add op c m = (m', Return tt) ->
  canUndo m' = true /\ canRedo m' = false.
Proof.
  intros Hst Hmx.
  destruct (dontCompose m) eqn:Hdc; [by apply add_push_enables_undo; auto|].
  destruct c; [|by apply add_push_enables_undo; auto].
  destruct (undoStack m) as [|x l _] eqn:Hundo using rev_ind;
    [by apply add_push_enables_undo; auto|].
  rewrite (add_normal_compose m op l x) by auto.
  destruct (TextOperation.compose op x); [|discriminate].
  intros [= <-]. unfold canUndo, canRedo; simpl. split; [|done].
  apply negb_true_iff, Z.eqb_neq. rewrite length_app. simpl. lia.
Qed.

End UndoManagerMore.

(** ** Range: positions stay inside the document and keep their order *)

Section RangeMore.
Context {T : Type} `{!TextOperation.API T}.

Lemma targetLength_nonneg (ops : list Op) : 0 <= TextOp.targetLength ops.
Proof.
  induction ops as [|[n|s] rest IH]; simpl; [lia| |lia].
  destruct (Z.ltb_spec 0 n); lia.
Qed.

(** With [index >= 0] the loop never returns less than [newIndex - index],
    the length of what the components seen so far produce. *)
Lemma transformIndex_loop_lower (ops : list Op) (index newIndex : Z) :
  0 <= index ->
  newIndex - index <= Range.transformIndex_loop ops index newIndex.
Proof.
  revert index newIndex.
  induction ops as [|[n|s] rest IH]; intros index newIndex Hindex; simpl; [lia| |].
  - unfold isRetain. destruct (Z.ltb_spec 0 n).
    + destruct (Z.ltb_spec (index - n) 0); [lia|].
      etransitivity; [|apply IH]; lia.
    + destruct (Z.ltb_spec (index + n) 0); [lia|].
      etransitivity; [|apply IH]; lia.
  - destruct (Z.ltb_spec index 0); [lia|].
    etransitivity; [|apply IH]; lia.
Qed.

Lemma transformIndex_loop_upper (ops : list Op) (index newIndex : Z) :
  0 <= index <= TextOp.baseLength ops ->
  Range.transformIndex_loop ops index newIndex
    <= newIndex - index + TextOp.targetLength ops.
Proof.
  revert index newIndex.
  induction ops as [|[n|s] rest IH]; intros index newIndex Hindex; simpl in *; [lia| |].
  - pose proof (targetLength_nonneg rest).
    unfold isRetain. destruct (Z.ltb_spec 0 n).
    + destruct (Z.ltb_spec (index - n) 0); [lia|].
      etransitivity; [apply IH|]; lia.
    + destruct (Z.ltb_spec (index + n) 0); [lia|].
      etransitivity; [apply IH|]; lia.
  - destruct (Z.ltb_spec index 0); [lia|].
    etransitivity; [apply IH|]; lia.
Qed.

Lemma transformIndex_loop_mono (ops : list Op) (i1 n1 i2 n2 : Z) :
  0 <= i1 <= i2 -> n1 - i1 = n2 - i2 ->
  Range.transformIndex_loop ops i1 n1 <= Range.transformIndex_loop ops i2 n2.
Proof.
  revert i1 n1 i2 n2.
  induction ops as [|[n|s] rest IH]; intros i1 n1 i2 n2 Hi Hd; simpl; [lia| |].
  - unfold isRetain. destruct (Z.ltb_spec 0 n).
    + destruct (Z.ltb_spec (i1 - n) 0); destruct (Z.ltb_spec (i2 - n) 0); try lia.
      * etransitivity; [|apply transformIndex_loop_lower]; lia.
      * apply IH; lia.
    + destruct (Z.ltb_spec (i1 + n) 0); destruct (Z.ltb_spec (i2 + n) 0); try lia.
      * etransitivity; [|apply transformIndex_loop_lower]; lia.
      * apply IH; lia.
  - destruct (Z.ltb_spec i1 0); destruct (Z.ltb_spec i2 0); try lia.
    apply IH; lia.
Qed.

(** X14: a position inside the document an operation applies to is mapped
    to a position inside the document it produces: for
    [0 <= index <= baseLength], the transformed index lies between 0 and
    [targetLength]. *)
Theorem transformIndex_within_target (ops : list Op) (index : Z) :
  0 <= index <= TextOp.baseLength ops ->
  0 <= Range.transformIndex ops index <= TextOp.targetLength ops.
Proof.
  intros Hindex. unfold Range.transformIndex. split.
  - etransitivity; [|apply transformIndex_loop_lower]; lia.
  - etransitivity; [apply transformIndex_loop_upper|]; lia.
Qed.

(** X15: [Range.transform] keeps the direction of a range: if the anchor is
    not after the head it is not after it in the result, and the same with
    anchor and head exchanged. *)
Theorem Range_transform_keeps_order (r : Range.t) (other : T) :
  (0 <= Range.anchor r <= Range.head r ->
   Range.anchor (Range.transform r other) <= Range.head (Range.transform r other))
  /\
  (0 <= Range.head r <= Range.anchor r ->
   Range.head (Range.transform r other) <= Range.anchor (Range.transform r other)).
Proof.
  unfold Range.transform, Range.transformIndex.
  destruct (Z.eqb_spec (Range.anchor r) (Range.head r)); simpl;
    split; intros Horder; try lia; apply transformIndex_loop_mono; lia.
Qed.

(** [Range.equals] answers true exactly for two ranges with the same anchor
    and the same head. *)
Lemma Range_equals_iff (a b : Range.t) :
  Range.equals a b = true <-> a = b.
Proof.
  unfold Range.equals. rewrite andb_true_iff, !Z.eqb_eq.
  destruct a, b; simpl. split; [intros [-> ->]; reflexivity|].
  intros [= -> ->]. done.
Qed.

Lemma Range_transform_empty (r : Range.t) (other : T) :
  Range.isEmpty r = true -> Range.isEmpty (Range.transform r other) = true.
Proof.
  unfold Range.isEmpty, Range.transform. intros ->. simpl. apply Z.eqb_refl.
Qed.

Lemma transformIndex_loop_retains (ops : list Op) (index newIndex : Z) :
  Forall (fun op => isRetain op = true) ops ->
  Range.transformIndex_loop ops index newIndex = newIndex.
Proof.
  revert index. induction ops as [|op rest IH]; intros index Hall; [done|].
  inversion_clear Hall as [|? ? Hop Hrest]. simpl. rewrite Hop.
  destruct op as [n|s]; [|discriminate].
  destruct (index - n <? 0); [done|by apply IH].
Qed.

(** X16: an operation made of retains only moves no position: every range
    is transformed into itself. *)
Theorem Range_transform_retain_only (r : Range.t) (other : T) :
  Forall (fun op => isRetain op = true) (TextOperation.ops other) ->
  Range.transform r other = r.
Proof.
  intros Hall. unfold Range.transform, Range.transformIndex.
  rewrite !transformIndex_loop_retains by exact Hall.
  destruct r as [a h]; simpl. destruct (Z.eqb_spec a h); congruence.
Qed.

End RangeMore.

(** ** Selection: comparison and transformation *)

Section SelectionMore.
Context {T : Type} `{!TextOperation.API T}.

Import Selection.

#[local] Instance range_le_trans : Transitive range_le.
Proof. intros a b c. unfold range_le. lia. Qed.

#[local] Instance range_le_antisymm : AntiSymm (=) range_le.
Proof.
  intros [a1 h1] [a2 h2]. unfold range_le; simpl. intros H1 H2.
  f_equal; lia.
Qed.

(** Two arrays sort to the same array exactly when they hold the same
    ranges, each as often. *)
Lemma Array_sort_eq_iff (a b : list Range.t) :
  Array_sort compareRanges a = Array_sort compareRanges b <-> a ≡ₚ b.
Proof.
  split.
  - intros Heq. rewrite <- (Array_sort_perm compareRanges a), Heq.
    apply Array_sort_perm.
  - intros Hperm. apply (Sorted_unique range_le); try apply Array_sort_sorted.
    by rewrite !Array_sort_perm.
Qed.

Lemma equals_loop_iff (l1 l2 : list Range.t) :
  length l1 = length l2 -> equals_loop l1 l2 = true <-> l1 = l2.
Proof.
  revert l2. induction l1 as [|r1 l1 IH]; intros [|r2 l2]; simpl; try done.
  intros [= Hlen]. destruct (Range.equals r1 r2) eqn:Heq; simpl.
  - apply Range_equals_iff in Heq as ->. rewrite (IH l2 Hlen).
    split; [by intros ->|by intros [= ->]].
  - split; [done|]. intros [= -> _].
    assert (Range.equals r2 r2 = true) by by apply Range_equals_iff.
    congruence.
Qed.

Lemma array_insert_eq (h : store) (l : loc) (a : list Range.t) :
  array (<[l := a]> h) l = a.
Proof. unfold array. by rewrite lookup_insert_eq. Qed.

Lemma array_insert_ne (h : store) (l l' : loc) (a : list Range.t) :
  l ≠ l' -> array (<[l := a]> h) l' = array h l'.
Proof. intros Hne. unfold array. by rewrite lookup_insert_ne. Qed.

(** The result of [equals], and the store it leaves. *)
Lemma equals_result (this other : Selection.t) (h : store) :
  exists (h' : store) (b : bool),
    equals this other h = (h', Return b)
    /\ (b = true <-> array h (ranges this) ≡ₚ array h (ranges other))
    /\ (forall l, array h' l ≡ₚ array h l)
    /\ (forall l, l ≠ ranges this -> l ≠ ranges other -> h' !! l = h !! l).
Proof.
  destruct (decide (length (array h (ranges this)) = length (array h (ranges other))))
    as [Hlen|Hlen].
  - eexists _, _. split; [by apply equals_sorts_in_place|].
    set (A := array h (ranges this)) in *.
    set (B := array h (ranges other)) in *.
    destruct (decide (ranges this = ranges other)) as [Halias|Hdiff].
    + rewrite <- Halias. rewrite !array_insert_eq.
      assert (A = B) as <- by (subst A B; by rewrite Halias).
      repeat split; try done.
      * intros _. by apply equals_loop_iff.
      * intros l. destruct (decide (ranges this = l)) as [<-|Hl].
        -- rewrite array_insert_eq, !Array_sort_perm. done.
        -- by rewrite !array_insert_ne.
      * intros l Hl _. by rewrite !lookup_insert_ne.
    + rewrite (array_insert_ne _ (ranges this) (ranges other)) by done.
      rewrite array_insert_eq.
      rewrite (array_insert_ne _ (ranges other) (ranges this)) by done.
      rewrite array_insert_eq. fold B.
      repeat split.
      * intros Hloop. apply Array_sort_eq_iff, equals_loop_iff; [|done].
        by rewrite !Array_sort_perm.
      * intros Hperm. apply equals_loop_iff; [by rewrite !Array_sort_perm|].
        by apply Array_sort_eq_iff.
      * intros l. destruct (decide (ranges other = l)) as [<-|Hl].
        -- fold B. rewrite array_insert_eq. apply Array_sort_perm.
        -- rewrite array_insert_ne by done.
           destruct (decide (ranges this = l)) as [<-|Hl'].
           ++ rewrite array_insert_eq. apply Array_sort_perm.
           ++ by rewrite array_insert_ne.
      * intros l Hl Hl'. by rewrite !lookup_insert_ne.
  - exists h, false. split; [by apply equals_length_mismatch|].
    repeat split; try done.
    intros Hperm. by apply Permutation_length in Hperm.
Qed.

(** X17: [Selection.equals] ignores the order of the ranges: it returns
    true exactly when the two selections hold the same ranges, each as often
    in one as in the other; it never throws. *)
Theorem Selection_equals_iff_perm (this other : Selection.t) (h : store) :
  exists b : bool,
    snd (equals this other h) = Return b
    /\ (b = true <-> array h (ranges this) ≡ₚ array h (ranges other)).
Proof.
  destruct (equals_result this other h) as (h' & b & -> & Hb & _).
  by exists b.
Qed.

(** X18: [Selection.equals] may reorder the two arrays it compares, but it
    adds and removes no range: every array of the store holds the same
    ranges after the call as before, and the arrays of other selections are
    not touched at all. *)
Theorem Selection_equals_keeps_ranges (this other : Selection.t) (h : store) :
  let h' := fst (equals this other h) in
  (forall l, array h' l ≡ₚ array h l)
  /\ (forall l, l ≠ ranges this -> l ≠ ranges other -> h' !! l = h !! l).
Proof.
  destruct (equals_result this other h) as (h' & b & -> & _ & Hperm & Hframe).
  by split.
Qed.

Lemma fresh_unused (h : store) : h !! fresh (dom h) = None.
Proof. apply not_elem_of_dom, is_fresh. Qed.

Lemma transform_unfold_store (this : Selection.t) (other : T) (h : store) :
  transform this other h
    = (<[fresh (dom h) := map (fun r => Range.transform r other) (array h (ranges this))]> h,
       Return (mk (fresh (dom h)))).
Proof. reflexivity. Qed.

(** X19: [Selection.transform] builds a new array: the selection it returns
    refers to a location that was unused, holding the ranges of [this]
    each transformed by [Range.transform], in the same order; nothing else
    in the store changes, so no existing selection is modified. *)
Theorem Selection_transform_fresh (this : Selection.t) (other : T) (h : store) :
  exists s', 
    snd (transform this other h) = Return s'
    /\ h !! ranges s' = None
    /\ array (fst (transform this other h)) (ranges s')
       = map (fun r => Range.transform r other) (array h (ranges this))
    /\ (forall l, l ≠ ranges s' -> fst (transform this other h) !! l = h !! l).
Proof.
  rewrite transform_unfold_store. eexists. simpl. split; [reflexivity|]. simpl.
  split; [apply fresh_unused|]. split; [apply array_insert_eq|].
  intros l Hl. by rewrite lookup_insert_ne.
Qed.

(** X20: a selection made of cursors only is transformed into a selection
    made of cursors only: if [somethingSelected] answers false before
    [transform], it answers false for the result. *)
Theorem Selection_transform_keeps_cursors
  (this s' : Selection.t) (other : T) (h h' : store) :
  snd (somethingSelected this h) = Return false ->
  transform this other h = (h', Return s') ->
  somethingSelected s' h' = (h', Return false).
Proof.
  rewrite transform_unfold_store. intros Hnone [= <- <-].
  unfold somethingSelected, bind, get, ret in *; simpl in *.
  injection Hnone as Hnone. f_equal. f_equal.
  rewrite array_insert_eq.
  induction (array h (ranges this)) as [|r rest IH]; simpl in *; [done|].
  apply orb_false_iff in Hnone as [Hr Hrest].
  apply negb_false_iff in Hr.
  rewrite (Range_transform_empty r other Hr). simpl. by apply IH.
Qed.

(** X21: selections that are equal stay equal when both are transformed by
    the same operation: for two selections of the store that hold the same
    ranges, [equals] on their transforms returns true. *)
Theorem transformed_selections_equal (a b : Selection.t) (other : T) (h : store) :
  is_Some (h !! ranges a) -> is_Some (h !! ranges b) ->
  array h (ranges a) ≡ₚ array h (ranges b) ->
  snd ((a' <- transform a other ;;
        b' <- transform b other ;;
        equals a' b') h) = Return true.
Proof.
  intros Ha Hb Hperm. unfold bind at 1. rewrite transform_unfold_store.
  unfold bind at 1. rewrite transform_unfold_store.
  set (la := fresh (dom h)).
  set (h1 := <[la := _]> h).
  set (lb := fresh (dom h1)).
  set (h2 := <[lb := _]> h1).
  assert (la ≠ ranges b) as Hlab.
  { intros Heq. destruct Hb as [x Hx]. rewrite <- Heq in Hx.
    unfold la in Hx. by rewrite fresh_unused in Hx. }
  assert (lb ≠ la) as Hne.
  { intros Heq. pose proof (fresh_unused h1) as Hnone. fold lb in Hnone.
    rewrite Heq in Hnone. unfold h1 in Hnone. by rewrite lookup_insert_eq in Hnone. }
  destruct (equals_result (mk la) (mk lb) h2) as (h' & r & -> & Hr & _).
  simpl in *. f_equal. apply Hr.
  unfold h2. rewrite array_insert_eq, array_insert_ne by done.
  unfold h1. rewrite array_insert_eq, array_insert_ne by done.
  by apply Permutation_map.
Qed.


End SelectionMore.

(** ** The further properties on the concrete scenarios *)

Section ScenarioMore.

Import Scenario.

Lemma receiveOperation_S5_replay :
  let s' := fst (Server.receiveOperation 0 yo server1) in
  Server.operations s' = [hi; [OpStr "yo"; OpNum 2]]
  /\ Server.replay (Server.operations s') "" = Return (Server.document s').
Proof.
  apply (receiveOperation_keeps_replay server1 _ 0 yo [OpStr "yo"; OpNum 2] "");
    vm_compute; reflexivity.
Defined.

Lemma receiveOperation_S5_current :
  Server.receiveOperation 1 [OpNum 2; OpStr "!"] server1
    = (Server.mk "hi!" [hi; [OpNum 2; OpStr "!"]], Return [OpNum 2; OpStr "!"]).
Proof.
  rewrite (receiveOperation_current_revision server1 1 [OpNum 2; OpStr "!"] eq_refl).
  reflexivity.
Defined.

Lemma session_in_flight :
  let c' := fst (Client.run session (Client.create 7)) in
  Client.sent c'
    = (length (filter Client.is_ack session) + Client.outstanding_count (Client.state c'))%nat
  /\ (Client.sent c' <= length (filter Client.is_ack session) + 1)%nat.
Proof.
  apply (one_operation_in_flight 7 session). vm_compute. reflexivity.
Defined.

Lemma session_revision :
  Client.revision (fst (Client.run session (Client.create 7)))
    = 7 + Z.of_nat (length (filter Client.from_server session)).
Proof.
  apply (revision_counts_server_events session (Client.create 7)).
  vm_compute. reflexivity.
Defined.

(** A server operation for a five-character document does not fit the
    outstanding operation: [transform] throws. *)
Lemma applyServer_mismatch :
  let c' := fst (Client.applyServer retain5 awaiting) in
  Client.revision c' = Client.revision awaiting + 1
  /\ Client.state c' = Client.state awaiting.
Proof.
  apply (applyServer_throw_advances_revision awaiting _ retain5 (Error "LengthMismatch")).
  vm_compute. reflexivity.
Defined.

(** An edit for a five-character document cannot be composed onto the
    buffer. *)
Lemma applyClient_mismatch :
  let c' := fst (Client.applyClient retain5 buffering) in
  Client.revision c' = Client.revision buffering
  /\ filter (fun x => negb (Client.is_send x)) (Client.calls c')
     = filter (fun x => negb (Client.is_send x)) (Client.calls buffering)
  /\ (forall e, @Throw unit (Error "LengthMismatch") = Throw e -> c' = buffering).
Proof.
  apply (applyClient_frame buffering _ retain5 (Throw (Error "LengthMismatch"))).
  vm_compute. reflexivity.
Defined.

Lemma three_edits_two_sends :
  Client.run [Client.ApplyClient opA; Client.ApplyClient opB;
              Client.ApplyClient [OpNum 4; OpStr "!"];
              Client.ServerAck; Client.ServerAck] (Client.create 7)
    = (Client.mk Client.SynchronizedState (7 + 2)
         ([] ++ [Client.sendOperation 7 opA;
                 Client.sendOperation (7 + 1) [OpNum 3; OpStr "Z!"]]),
       Return tt).
Proof.
  apply (edits_are_buffered (Client.create 7) opA opB [OpNum 4; OpStr "!"]
           [OpNum 3; OpStr "Z!"]); vm_compute; reflexivity.
Defined.

Lemma undo_redo_two_edits :
  bind (UndoManager.performUndo (fun t => UndoManager.add t false))
       (fun _ => UndoManager.performRedo (fun t => UndoManager.add t false)) two_edits
    = (UndoManager.mk UndoManager.NORMAL_STATE true [inv1; inv2] [] 2, Return tt).
Proof.
  apply (undo_then_redo_restores two_edits (fun t => t) (fun t => t) false false
           [inv1] inv2); reflexivity.
Defined.

Lemma undo_on_new_manager :
  let m1 := fst (UndoManager.performUndo (fun _ => ret tt) (UndoManager.create (T:=TextOp.t) 2)) in
  UndoManager.isUndoing m1 = true
  /\ UndoManager.add inv1 false m1
     = (UndoManager.mk UndoManager.UNDOING_STATE true [] [inv1] 2, Return tt).
Proof.
  destruct (performUndo_empty_stays_undoing (UndoManager.create (T:=TextOp.t) 2)
              (fun _ => ret tt) eq_refl) as (_ & Hmode & _ & _ & Hadd).
  split; [exact Hmode|exact (Hadd inv1 false)].
Defined.

Lemma add_mismatch_loses_top :
  UndoManager.add inv1 true two_edits
    = (UndoManager.mk UndoManager.NORMAL_STATE false [inv1] [] 2,
       Throw (Error "LengthMismatch")).
Proof.
  apply (add_compose_throw_loses_top two_edits inv1 [inv1] inv2 (Error "LengthMismatch"));
    vm_compute; reflexivity.
Defined.

(** The remote operation deletes the "x" and the "y" the two inverses would
    delete: both become noops and are dropped. *)
Lemma transform_drops_both :
  let m' := fst (UndoManager.transform [OpNum 2; OpNum (-2)] two_edits) in
  (length (UndoManager.undoStack m') <= length (UndoManager.undoStack two_edits))%nat
  /\ (length (UndoManager.redoStack m') <= length (UndoManager.redoStack two_edits))%nat
  /\ UndoManager.state m' = UndoManager.state two_edits
  /\ UndoManager.dontCompose m' = UndoManager.dontCompose two_edits
  /\ UndoManager.maxItems m' = UndoManager.maxItems two_edits.
Proof.
  apply (transform_never_grows two_edits _ [OpNum 2; OpNum (-2)] (Return tt)).
  vm_compute. reflexivity.
Defined.

Lemma add_on_new_manager :
  let m' := fst (UndoManager.add inv1 true (UndoManager.create 1)) in
  UndoManager.canUndo m' = true /\ UndoManager.canRedo m' = false.
Proof.
  apply (add_enables_undo (UndoManager.create 1) _ inv1 true);
    [reflexivity | simpl; lia | vm_compute; reflexivity].
Defined.

Lemma there_within_target :
  0 <= Range.transformIndex there 8 <= TextOp.targetLength there.
Proof.
  apply (transformIndex_within_target there 8). vm_compute. split; discriminate.
Defined.

Lemma retain5_moves_nothing :
  Range.transform (Range.mk 1 4) retain5 = Range.mk 1 4.
Proof.
  apply (Range_transform_retain_only (Range.mk 1 4) retain5).
  repeat constructor.
Defined.

Lemma cursors_stay_cursors :
  let r := Selection.transform selection1 there cursors in
  exists s', snd r = Return s'
    /\ Selection.somethingSelected s' (fst r) = (fst r, Return false).
Proof.
  eexists. split; [reflexivity|].
  apply (Selection_transform_keeps_cursors selection1 _ there cursors);
    reflexivity.
Defined.

Lemma transformed_cursors_equal :
  snd ((a' <- Selection.transform selection1 there ;;
        b' <- Selection.transform selection2 there ;;
        Selection.equals a' b') cursors) = Return true.
Proof.
  apply (transformed_selections_equal selection1 selection2 there cursors).
  - by eexists.
  - by eexists.
  - vm_compute. apply Permutation_swap.
Defined.


End ScenarioMore.
